(** * The request rate limiter of [src/lib/rate-limit.ts]

    A shallow embedding of the fixed-window limiter ([checkRateLimit]), of its
    lazy clean-up, of the backend selection, of the per-identifier promise
    queue, of [getClientIP] and of the newsletter route that uses them,
    followed by the properties the specification states about them and by
    further properties read off the code.

    Conventions of the embedding:
    - JavaScript numbers that the limiter handles (counts, millisecond
      timestamps, quotas) are integers far below 2^53; they are modelled by
      [Z] and their arithmetic is exact.
    - [Date.now()] is an input of every call: the argument [now].
    - The module-level variables [rateLimitStore] and [lastCleanup] form the
      record [Limiter], threaded explicitly through the calls. *)

From Stdlib Require Import ZArith String Ascii List Lia DecimalString DecimalZ.
From stdpp Require Import gmap strings list fin_maps.

Local Open Scope Z_scope.

(** ** Data model (lines 6-27 of rate-limit.ts) *)

Record RateLimitEntry := mkEntry { count : Z; resetTime : Z }.

Record RateLimitConfig := mkConfig { maxRequests : Z; windowMs : Z }.

Record RateLimitResult := mkResult { success : bool; remaining : Z; reset : Z }.

(** [rateLimitStore] (a JS [Map<string, RateLimitEntry>]) and [lastCleanup]. *)
Record Limiter := mkLimiter {
  rateLimitStore : gmap string RateLimitEntry;
  lastCleanup : Z
}.

(** The state right after module load, and after [__testResetRateLimit]. *)
Definition initial : Limiter := mkLimiter ∅ 0.

Definition __testResetRateLimit (_ : Limiter) : Limiter := initial.

#[global] Instance RateLimitEntry_eq_dec : EqDecision RateLimitEntry.
Proof. solve_decision. Defined.

#[global] Instance RateLimitResult_eq_dec : EqDecision RateLimitResult.
Proof. solve_decision. Defined.

(** ** The critical section of [checkRateLimit] (lines 74-117) *)

(** [5 * 60 * 1000], the clean-up period of line 77. *)
Definition CLEANUP_INTERVAL : Z := 5 * 60 * 1000.

(** The test [now > entry.resetTime] of lines 80 and 87. *)
Definition expired (now : Z) (entry : RateLimitEntry) : Prop :=
  now > resetTime entry.

#[global] Instance expired_dec now entry : Decision (expired now entry).
Proof. unfold expired. apply _. Defined.

(** The guard of line 77. *)
Definition cleanup_due (now : Z) (st : Limiter) : Prop :=
  now - lastCleanup st > CLEANUP_INTERVAL.

#[global] Instance cleanup_due_dec now st : Decision (cleanup_due now st).
Proof. unfold cleanup_due. apply _. Defined.

(** The loop of lines 79-81: every entry with [now > entry.resetTime] is
    deleted, the others are kept. *)
Definition sweep (now : Z) (store : gmap string RateLimitEntry)
  : gmap string RateLimitEntry :=
  filter (λ kv, ¬ expired now kv.2) store.

(** Lines 77-82. *)
Definition lazy_cleanup (now : Z) (st : Limiter) : Limiter :=
  if decide (cleanup_due now st)
  then mkLimiter (sweep now (rateLimitStore st)) now
  else st.

(** Lines 84-117: the three-way decision on the entry of [identifier]. *)
Definition window_step (now : Z) (identifier : string) (config : RateLimitConfig)
    (st : Limiter) : Limiter * RateLimitResult :=
  let fresh :=
    (mkLimiter (<[identifier := mkEntry 1 (now + windowMs config)]> (rateLimitStore st))
               (lastCleanup st),
     mkResult true (maxRequests config - 1) (now + windowMs config)) in
  match rateLimitStore st !! identifier with
  | None => fresh
  | Some entry =>
      if decide (expired now entry) then fresh
      else if decide (count entry >= maxRequests config) then
        (st, mkResult false 0 (resetTime entry))
      else
        let newCount := count entry + 1 in
        (mkLimiter (<[identifier := mkEntry newCount (resetTime entry)]> (rateLimitStore st))
                   (lastCleanup st),
         mkResult true (maxRequests config - newCount) (resetTime entry))
  end.

(** The local (in-memory) path of one call that runs to completion alone:
    the body of the [try] block after [await prev]. *)
Definition checkRateLimit_local (now : Z) (identifier : string)
    (config : RateLimitConfig) (st : Limiter) : Limiter * RateLimitResult :=
  window_step now identifier config (lazy_cleanup now st).

(** A sequence of calls, each awaited before the next one starts.  A call is
    the triple of its [Date.now()], its identifier and its configuration. *)
Definition Call : Type := Z * string * RateLimitConfig.

Fixpoint run_calls (calls : list Call) (st : Limiter)
  : Limiter * list RateLimitResult :=
  match calls with
  | [] => (st, [])
  | (now, identifier, config) :: rest =>
      let '(st1, r) := checkRateLimit_local now identifier config st in
      let '(st2, rs) := run_calls rest st1 in
      (st2, r :: rs)
  end.

(** The window and the result of lines 88-97, named for the statements below. *)
Definition fresh_result (now : Z) (config : RateLimitConfig) : RateLimitResult :=
  mkResult true (maxRequests config - 1) (now + windowMs config).

Definition fresh_entry (now : Z) (config : RateLimitConfig) : RateLimitEntry :=
  mkEntry 1 (now + windowMs config).

(** The calls of one caller: the same identifier and configuration at the
    given times. *)
Definition same_key_calls (k : string) (cfg : RateLimitConfig) (times : list Z)
  : list Call :=
  map (λ t, (t, k, cfg)) times.

(** The call at [now] finds no window it could continue for [k]: no entry,
    or an entry that line 87 treats as expired. *)
Definition opens_window (now : Z) (k : string) (st : Limiter) : Prop :=
  match rateLimitStore st !! k with
  | None => True
  | Some e => expired now e
  end.

(** Projections of a call. *)
Definition call_time (c : Call) : Z := c.1.1.
Definition call_key (c : Call) : string := c.1.2.

(** The calls of identifier [k] in a sequence, and the results that an
    interleaved run reported to the calls of [k]. *)
Definition calls_of (k : string) (calls : list Call) : list Call :=
  filter (λ c, call_key c = k) calls.

Definition results_of (k : string) (calls : list Call)
    (results : list RateLimitResult) : list RateLimitResult :=
  (filter (λ cr, call_key cr.1 = k) (zip calls results)).*2.

(** [Date.now()] does not go backwards along the sequence, starting no
    earlier than [t0]. *)
Fixpoint chronological (t0 : Z) (calls : list Call) : Prop :=
  match calls with
  | [] => True
  | c :: rest => t0 <= call_time c ∧ chronological (call_time c) rest
  end.

(** What line 87 lets a call at [now] see of the entry of [k]: the entry
    when it is live, nothing when it is absent or expired. *)
Definition live_entry (now : Z) (k : string) (st : Limiter) : option RateLimitEntry :=
  match rateLimitStore st !! k with
  | Some e => if decide (expired now e) then None else Some e
  | None => None
  end.

(** No call from [t0] on can see an entry of [k] in [st]. *)
Definition dead_from (t0 : Z) (k : string) (st : Limiter) : Prop :=
  match rateLimitStore st !! k with
  | Some e => resetTime e < t0
  | None => True
  end.

(** Two limiter states that no call for [k] from [t0] on can tell apart. *)
Definition same_view (t0 : Z) (k : string) (s s' : Limiter) : Prop :=
  rateLimitStore s !! k = rateLimitStore s' !! k ∨ (dead_from t0 k s ∧ dead_from t0 k s').

(** ** Backend selection (lines 43-61) *)

(** The two environment variables the function reads; [None] is an unset
    variable. *)
Record Env := mkEnv {
  RATE_LIMIT_MODE : option string;
  NODE_ENV : option string
}.

(** What an [await]ed call comes back with. *)
Inductive Completion (E : Type) : Type :=
| Returned (r : RateLimitResult)
| Thrown (err : E).
Arguments Returned {E} r.
Arguments Thrown {E} err.

(** A line written to the console, with the error object passed along. *)
Inductive ConsoleLine (E : Type) : Type :=
| console_error (msg : string) (err : E)
| console_warn (msg : string) (err : E).
Arguments console_error {E} msg err.
Arguments console_warn {E} msg err.

(** The limiter state together with the console output so far. *)
Record Process (E : Type) := mkProcess {
  limiter : Limiter;
  console : list (ConsoleLine E)
}.
Arguments mkProcess {E} limiter console.
Arguments limiter {E} p.
Arguments console {E} p.

Section Backend.
(** The values that can be thrown. *)
Context {JsError : Type}.
(** [String.prototype.toUpperCase]. *)
Variable toUpperCase : string → string.
(** The [try] block of lines 49-50 as a whole: the dynamic import of
    ['./rate-limit-upstash'] followed by the call of its [upstashLimit].
    That module is not part of the sources at hand; the attempt either
    throws or returns a result. *)
Variable upstashLimit : string → RateLimitConfig → JsError + RateLimitResult.

(** Line 44: [(process.env.RATE_LIMIT_MODE || 'INMEM').toUpperCase()]. *)
Definition mode (env : Env) : string :=
  toUpperCase
    match RATE_LIMIT_MODE env with
    | Some m => if decide (m = "") then "INMEM" else m
    | None => "INMEM"
    end.

(** The local path of a call that is awaited on its own: with no other
    call of the identifier in flight, the promise queue of lines 63-72 and
    118-125 lets the critical section run at once and leaves the lock map
    as it found it ([single_call_on_idle_machine] below). *)
Definition local_path (now : Z) (identifier : string) (config : RateLimitConfig)
    (p : Process JsError) : Process JsError * Completion JsError :=
  let '(st, r) := checkRateLimit_local now identifier config (limiter p) in
  (mkProcess st (console p), Returned r).

(** [checkRateLimit], lines 39-126. *)
Definition checkRateLimit (env : Env) (now : Z) (identifier : string)
    (config : RateLimitConfig) (p : Process JsError)
  : Process JsError * Completion JsError :=
  if decide (mode env = "UPSTASH") then
    match upstashLimit identifier config with
    | inr r => (p, Returned r)
    | inl err =>
        if decide (NODE_ENV env = Some "production"%string) then
          (mkProcess (limiter p)
             (console p ++ [console_error "Upstash rate limiter failed in production:" err]),
           Thrown err)
        else
          local_path now identifier config
            (mkProcess (limiter p)
               (console p ++
                [console_warn
                   "Upstash rate limiter failed or not installed; falling back to in-memory limiter for development."
                   err]))
    end
  else local_path now identifier config p.
End Backend.

(** [toUpperCase] on strings of ASCII letters, for running the selector on
    concrete mode names. *)
Fixpoint ascii_upper (s : string) : string :=
  match s with
  | EmptyString => EmptyString
  | String c rest =>
      String (if ((97 <=? N_of_ascii c) && (N_of_ascii c <=? 122))%N
              then ascii_of_N (N_of_ascii c - 32) else c)
             (ascii_upper rest)
  end.

(** ** The caller's identity (lines 144-161) *)

(** A request, as far as [getClientIP] looks at it: [headers] maps a
    lower-case header name to what [request.headers.get] returns for it.
    Header values are byte strings, one [ascii] per code unit. *)
Record Request := mkRequest { headers : gmap string string }.

Definition headers_get (request : Request) (name : string) : option string :=
  headers request !! name.

(** The test [if (v)] on a [string | null]: a value passes when it is there
    and is not the empty string. *)
Definition if_truthy (v : option string) : option string :=
  match v with
  | Some s => if decide (s = "") then None else Some s
  | None => None
  end.

(** [s.split(sep)] for a one-character separator. *)
Fixpoint split_on (sep : ascii) (s : string) : list string :=
  match s with
  | EmptyString => [EmptyString]
  | String c rest =>
      if Ascii.eqb c sep then EmptyString :: split_on sep rest
      else match split_on sep rest with
           | h :: t => String c h :: t
           | [] => [String c EmptyString]
           end
  end.

(** The code units below 256 that [String.prototype.trim] removes: TAB, LF,
    VT, FF, CR, SPACE and NBSP. *)
Definition is_js_whitespace (c : ascii) : bool :=
  let n := N_of_ascii c in
  ((9 <=? n) && (n <=? 13) || (n =? 32) || (n =? 160))%N.

Fixpoint trimStart (s : string) : string :=
  match s with
  | EmptyString => EmptyString
  | String c rest => if is_js_whitespace c then trimStart rest else s
  end.

Fixpoint trimEnd (s : string) : string :=
  match s with
  | EmptyString => EmptyString
  | String c rest =>
      match trimEnd rest with
      | EmptyString => if is_js_whitespace c then EmptyString else String c EmptyString
      | rest' => String c rest'
      end
  end.

Definition trim (s : string) : string := trimEnd (trimStart s).

(** [filter(Boolean)] on strings keeps the non-empty ones. *)
Definition non_empty (s : string) : Prop := s ≠ EmptyString.

#[global] Instance non_empty_dec s : Decision (non_empty s).
Proof. unfold non_empty. apply _. Defined.

Definition FALLBACK_IP : string := "127.0.0.1".

(** Line 155: [forwarded.split(',').map(p => p.trim()).filter(Boolean)]. *)
Definition forwarded_parts (forwarded : string) : list string :=
  filter non_empty (trim <$> split_on "," forwarded).

Definition getClientIP (request : Request) : string :=
  match if_truthy (headers_get request "cf-connecting-ip") with
  | Some cfIp => cfIp
  | None =>
      match if_truthy (headers_get request "x-real-ip") with
      | Some realIp => realIp
      | None =>
          match if_truthy (headers_get request "x-forwarded-for") with
          | Some forwarded =>
              match forwarded_parts forwarded with
              | part :: _ => part
              | [] => FALLBACK_IP
              end
          | None => FALLBACK_IP
          end
      end
  end.

(** *** The words of the specification about header values

    These predicates say what "comma-separated entry", "whitespace-only" and
    "trimmed" mean without referring to [split_on] and [trim]. *)

Definition blank (s : string) : Prop :=
  Forall (λ c, is_js_whitespace c = true) (list_ascii_of_string s).

Definition has_comma (s : string) : Prop :=
  In ","%char (list_ascii_of_string s).

Definition first_char (s : string) : option ascii :=
  match s with
  | EmptyString => None
  | String c _ => Some c
  end.

Fixpoint last_char (s : string) : option ascii :=
  match s with
  | EmptyString => None
  | String c EmptyString => Some c
  | String _ rest => last_char rest
  end.

(** [t] neither starts nor ends with whitespace. *)
Definition trimmed (t : string) : Prop :=
  (∀ c, first_char t = Some c → is_js_whitespace c = false) ∧
  (∀ c, last_char t = Some c → is_js_whitespace c = false).

(** [t] is [e] without its leading and trailing whitespace. *)
Definition trim_of (e t : string) : Prop :=
  ∃ l r, e = l +:+ t +:+ r ∧ blank l ∧ blank r ∧ trimmed t.

(** [es] are the comma-separated entries of [f]. *)
Definition entries_of (f : string) (es : list string) : Prop :=
  es ≠ [] ∧ String.concat "," es = f ∧ Forall (λ e, ¬ has_comma e) es.

(** [ip] is the first entry of [f] that is not whitespace-only, trimmed. *)
Definition first_forwarded (f ip : string) : Prop :=
  ∃ pre e post,
    entries_of f (pre ++ e :: post) ∧ Forall blank pre ∧ ¬ blank e ∧ trim_of e ip.

(** Every entry of [f] is empty or whitespace-only. *)
Definition all_blank (f : string) : Prop :=
  ∃ es, entries_of f es ∧ Forall blank es.

(** A header that [if (v)] lets through: present and not empty. *)
Definition usable (v : option string) (s : string) : Prop :=
  v = Some s ∧ s ≠ EmptyString.

Definition unusable (v : option string) : Prop :=
  v = None ∨ v = Some EmptyString.

(** ** The per-identifier promise queue (lines 63-72 and 118-125)

    Calls that are in flight together are modelled on a small machine for
    the promise operations the function uses: a heap of promises, each
    pending with its list of reactions or fulfilled; a FIFO queue of
    microtasks; and the lock map [rateLimitLocks].  An [async] call runs
    synchronously up to its first [await] ([start_call]); what follows the
    [await] runs as one microtask ([resume]).  Only fulfilment occurs: no
    promise of the queue is ever rejected. *)

Module Async.

Definition pid : Type := nat.

(** The local variables that the continuation of [await prev] closes over. *)
Record Frame := mkFrame {
  f_call : nat;
  f_now : Z;
  f_identifier : string;
  f_config : RateLimitConfig;
  f_gate : pid;
  f_holder : pid
}.

(** What can be registered on a promise:
    - [OnThen holder gate]: the callback [() => gate] of line 68, whose
      derived promise is [holder];
    - [OnAwait fr]: the continuation of [await prev] of line 72;
    - [OnAdopt p]: the resolving function of [p], registered on the promise
      that [p] was resolved with. *)
Inductive Reaction :=
| OnThen (holder gate : pid)
| OnAwait (fr : Frame)
| OnAdopt (p : pid).

Inductive PromiseState :=
| Pending (reactions : list Reaction)
| Fulfilled.

(** The two kinds of promise jobs. *)
Inductive Job :=
| ReactionJob (r : Reaction)
| ResolveThenableJob (p thenable : pid).

Record Machine (E : Type) := mkMachine {
  m_limiter : Limiter;
  rateLimitLocks : gmap string pid;
  heap : gmap pid PromiseState;
  next_pid : pid;
  next_call : nat;
  microtasks : list Job;
  settled : list (nat * Completion E)
}.
Arguments mkMachine {E}.
Arguments m_limiter {E}.
Arguments rateLimitLocks {E}.
Arguments heap {E}.
Arguments next_pid {E}.
Arguments next_call {E}.
Arguments microtasks {E}.
Arguments settled {E}.

Section Machine.
Context {E : Type}.
(** The statements of the [try] block after [await prev].  The block of
    the source is [critical_section] below, which always returns; the
    parameter lets the [finally] block be run after a block that throws. *)
Variable body : Z → string → RateLimitConfig → Limiter → Limiter * Completion E.

(** No call in flight: empty lock map, nothing queued. *)
Definition idle (st : Limiter) : Machine E :=
  mkMachine st ∅ ∅ 0%nat 0%nat [] [].

Definition set_heap (h : gmap pid PromiseState) (m : Machine E) : Machine E :=
  mkMachine (m_limiter m) (rateLimitLocks m) h (next_pid m) (next_call m)
            (microtasks m) (settled m).

Definition set_locks (l : gmap string pid) (m : Machine E) : Machine E :=
  mkMachine (m_limiter m) l (heap m) (next_pid m) (next_call m)
            (microtasks m) (settled m).

Definition enqueue (jobs : list Job) (m : Machine E) : Machine E :=
  mkMachine (m_limiter m) (rateLimitLocks m) (heap m) (next_pid m) (next_call m)
            (microtasks m ++ jobs) (settled m).

(** [new Promise(...)] and [Promise.resolve()]: a new promise in state [s]. *)
Definition new_promise (s : PromiseState) (m : Machine E) : pid * Machine E :=
  (next_pid m,
   mkMachine (m_limiter m) (rateLimitLocks m) (<[next_pid m := s]> (heap m))
             (S (next_pid m)) (next_call m) (microtasks m) (settled m)).

(** Registering a reaction on [p] ([p.then(...)], [await p]): appended to the
    reactions of a pending promise, queued at once on a fulfilled one. *)
Definition subscribe (p : pid) (r : Reaction) (m : Machine E) : option (Machine E) :=
  match heap m !! p with
  | Some (Pending rs) => Some (set_heap (<[p := Pending (rs ++ [r])]> (heap m)) m)
  | Some Fulfilled => Some (enqueue [ReactionJob r] m)
  | None => None
  end.

(** Fulfilling [p]: its reactions are queued in registration order; a
    promise that is already fulfilled stays as it is. *)
Definition fulfil (p : pid) (m : Machine E) : option (Machine E) :=
  match heap m !! p with
  | Some (Pending rs) =>
      Some (enqueue (ReactionJob <$> rs) (set_heap (<[p := Fulfilled]> (heap m)) m))
  | Some Fulfilled => Some m
  | None => None
  end.

(** Lines 64-72: the synchronous part of a call (local mode), up to and
    including [await prev]. *)
Definition start_call (c : Call) (m : Machine E) : option (Machine E) :=
  let '(now, identifier, config) := c in
  (* 64 *)
  let '(prev, m) :=
    match rateLimitLocks m !! identifier with
    | Some p => (p, m)
    | None => new_promise Fulfilled m
    end in
  (* 66 *)
  let '(gate, m) := new_promise (Pending []) m in
  (* 68 *)
  let '(holder, m) := new_promise (Pending []) m in
  m ← subscribe prev (OnThen holder gate) m;
  (* 69 *)
  let m := set_locks (<[identifier := holder]> (rateLimitLocks m)) m in
  (* 72 *)
  let fr := mkFrame (next_call m) now identifier config gate holder in
  subscribe prev (OnAwait fr)
    (mkMachine (m_limiter m) (rateLimitLocks m) (heap m) (next_pid m)
               (S (next_call m)) (microtasks m) (settled m)).

(** Lines 74-125: the rest of the [try] block, then the [finally] block
    whatever the outcome, then the call settles with that outcome. *)
Definition resume (fr : Frame) (m : Machine E) : option (Machine E) :=
  let '(st, outcome) := body (f_now fr) (f_identifier fr) (f_config fr) (m_limiter m) in
  let m := mkMachine st (rateLimitLocks m) (heap m) (next_pid m) (next_call m)
                     (microtasks m) (settled m) in
  (* 120 *)
  m ← fulfil (f_gate fr) m;
  (* 122-124 *)
  let m :=
    if decide (rateLimitLocks m !! f_identifier fr = Some (f_holder fr))
    then set_locks (delete (f_identifier fr) (rateLimitLocks m)) m
    else m in
  Some (mkMachine (m_limiter m) (rateLimitLocks m) (heap m) (next_pid m) (next_call m)
                  (microtasks m) (settled m ++ [(f_call fr, outcome)])).

(** One promise job. *)
Definition exec (j : Job) (m : Machine E) : option (Machine E) :=
  match j with
  | ReactionJob (OnThen holder gate) =>
      (* the callback returns the promise [gate]: [holder] will follow it *)
      Some (enqueue [ResolveThenableJob holder gate] m)
  | ResolveThenableJob p thenable => subscribe thenable (OnAdopt p) m
  | ReactionJob (OnAdopt p) => fulfil p m
  | ReactionJob (OnAwait fr) => resume fr m
  end.

(** The event loop takes the oldest microtask. *)
Definition step (m : Machine E) : option (Machine E) :=
  match microtasks m with
  | [] => None
  | j :: rest =>
      exec j (mkMachine (m_limiter m) (rateLimitLocks m) (heap m) (next_pid m)
                        (next_call m) rest (settled m))
  end.

(** Running until the microtask queue is empty, in at most [fuel] jobs. *)
Fixpoint run_until_idle (fuel : nat) (m : Machine E) : option (Machine E) :=
  match microtasks m with
  | [] => Some m
  | _ :: _ =>
      match fuel with
      | O => None
      | S fuel' => m' ← step m; run_until_idle fuel' m'
      end
  end.

(** Calls fired together: each runs its synchronous part, in order, before
    any microtask runs. *)
Fixpoint start_all (calls : list Call) (m : Machine E) : option (Machine E) :=
  match calls with
  | [] => Some m
  | c :: rest => m' ← start_call c m; start_all rest m'
  end.

Definition fire (fuel : nat) (calls : list Call) (st : Limiter) : option (Machine E) :=
  m ← start_all calls (idle st); run_until_idle fuel m.

(** The calls one after the other, each with the state the previous left. *)
Fixpoint in_sequence (calls : list Call) (st : Limiter)
  : Limiter * list (Completion E) :=
  match calls with
  | [] => (st, [])
  | (now, identifier, config) :: rest =>
      let '(st1, o) := body now identifier config st in
      let '(st2, os) := in_sequence rest st1 in
      (st2, o :: os)
  end.

End Machine.

(** The [try] block as the source has it (lines 74-117): it cannot throw. *)
Definition critical_section {E : Type} (now : Z) (identifier : string)
    (config : RateLimitConfig) (st : Limiter) : Limiter * Completion E :=
  let '(st', r) := checkRateLimit_local now identifier config st in
  (st', Returned r).

End Async.

(** *** The shape of the queue while calls of one identifier are in flight

    Fired from an idle machine, call number [i] (from 0) creates the promises
    [gate i] and [holder i]; promise 0 is the [Promise.resolve()] of the
    first call. *)

Module Queue.
Import Async.

Definition gate (i : nat) : pid := S (2 * i).
Definition holder (i : nat) : pid := S (S (2 * i)).

Definition frame_of (i : nat) (c : Call) : Frame :=
  mkFrame i (call_time c) (call_key c) c.2 (gate i) (holder i).

(** The two reactions that call [i] registers on the promise before it. *)
Definition reactions_of (i : nat) (c : Call) : list Reaction :=
  [OnThen (holder i) (gate i); OnAwait (frame_of i c)].

(** What waits on [holder (i - 1)] when [started] calls have been started. *)
Definition waiters (calls : list Call) (started i : nat) : list Reaction :=
  match calls !! i with
  | Some c => if decide (i < started)%nat then reactions_of i c else []
  | None => []
  end.

(** The machine when the first [started] calls have run their synchronous
    part and the first [finished] of them have settled. *)
Record shape {E : Type} (body : Z → string → RateLimitConfig → Limiter → Limiter * Completion E)
    (key : string) (calls : list Call) (st : Limiter)
    (started finished : nat) (m : Machine E) : Prop := mkShape {
  shape_first : heap m !! 0%nat = Some Fulfilled;
  shape_done : ∀ i, (i < finished)%nat →
    heap m !! gate i = Some Fulfilled ∧ heap m !! holder i = Some Fulfilled;
  shape_waiting : ∀ i, (finished ≤ i < started)%nat →
    heap m !! gate i = Some (Pending []) ∧
    heap m !! holder i = Some (Pending (waiters calls started (S i)));
  shape_queue : microtasks m =
    if decide (finished < started)%nat
    then ReactionJob <$> waiters calls started finished
    else [];
  shape_locks : rateLimitLocks m =
    if decide (finished < started)%nat
    then {[ key := holder (started - 1) ]}
    else ∅;
  shape_next_pid : next_pid m = S (2 * started);
  shape_next_call : next_call m = started;
  shape_limiter : m_limiter m = (in_sequence body (take finished calls) st).1;
  shape_settled : settled m =
    imap (λ i o, (i, o)) (in_sequence body (take finished calls) st).2
}.

End Queue.

(** ** Invariants of the store *)

(** Every stored count lies between 1 and [bound]. *)
Definition counts_within (bound : Z) (st : Limiter) : Prop :=
  ∀ k e, rateLimitStore st !! k = Some e → 1 <= count e <= bound.

(** No stored window has ended before [t]. *)
Definition none_ended_before (t : Z) (st : Limiter) : Prop :=
  ∀ k e, rateLimitStore st !! k = Some e → t <= resetTime e.

(** The state is as the clean-up leaves it: no stored window ended before
    the recorded time of the last clean-up. *)
Definition swept (st : Limiter) : Prop :=
  none_ended_before (lastCleanup st) st.

(** The number of granted calls among the results of a run. *)
Definition grants (results : list RateLimitResult) : Z :=
  Z.of_nat (length (filter (λ r, success r = true) results)).

(** ** The newsletter route (lines 162-452 of the file at hand)

    The three handlers share the limiter above, keyed by [getClientIP], with
    one configuration.  The database client and the string functions of the
    runtime are parameters; a database operation may fail and may change
    the database either way. *)

(** Lines 168-172. *)
Definition RATE_LIMIT_CONFIG : RateLimitConfig := mkConfig 3 (60 * 60 * 1000).

(** The environment that the route reads, with that of the limiter. *)
Record RouteEnv := mkRouteEnv {
  CSRF_PROTECTION : option string;
  CSRF_PROTECTION_TOKEN : option string;
  limiter_env : Env
}.

(** A request as the handlers look at it: its headers and, for [DELETE],
    [new URL(request.url).searchParams.get("email")]. *)
Record HttpRequest := mkHttpRequest {
  http_request : Request;
  query_email : option string
}.

(** [n.toString()] for an integer: its decimal digits, with a minus sign
    when negative. *)
Definition number_toString (n : Z) : string :=
  NilZero.string_of_int (Z.to_int n).

(** Lines 195-204. *)
Definition getRateLimitHeaders (remaining reset : Z) : gmap string string :=
  {[ "X-RateLimit-Limit"%string := number_toString (maxRequests RATE_LIMIT_CONFIG);
     "X-RateLimit-Remaining"%string := number_toString remaining;
     "X-RateLimit-Reset"%string := number_toString reset ]}.

(** The data of the [update] call of [DELETE] (lines 370-376). *)
Record UpdateData := mkUpdateData {
  data_status : string;
  data_unsubscribedAt : Z
}.

Section Route.
Context {JsError DB Subscriber Rows : Type}.

(** The JSON bodies that the handlers send. *)
Inductive Payload : Type :=
| ErrorPayload (error : string)
| MessagePayload (message : string)
| StatsPayload (totalSubscribers totalUnsubscribed : Z) (recentSubscribers : Rows).

(** [NextResponse.json(payload, { status, headers })]; no [headers] option
    is the empty map. *)
Record Response := mkResponse {
  status : Z;
  payload : Payload;
  response_headers : gmap string string
}.

(** The process state of the limiter and the database. *)
Record World := mkWorld {
  process : Process JsError;
  database : DB
}.

Variable toUpperCase : string → string.
Variable toLowerCase : string → string.
Variable upstashLimit : string → RateLimitConfig → JsError + RateLimitResult.
(** [subscriber.status]. *)
Variable subscriber_status : Subscriber → string.
(** [prisma.newsletterSubscriber.findUnique({ where: { email } })]. *)
Variable findUnique : string → DB → DB * (JsError + option Subscriber).
(** [prisma.newsletterSubscriber.update({ where: { email }, data })]. *)
Variable update : string → UpdateData → DB → DB * (JsError + unit).
(** [prisma.newsletterSubscriber.count({ where: { status } })]. *)
Variable count_status : string → DB → DB * (JsError + Z).
(** The [findMany] call of lines 419-430. *)
Variable findMany_recent : DB → DB * (JsError + Rows).
(** Lines 227-302 of [POST]: reading the JSON body, validating it and
    subscribing.  They work on an untyped JSON value and are not modelled;
    the handler is stated for whatever they do. *)
Variable subscribe : HttpRequest → RateLimitResult → DB → DB * (JsError + Response).

(** Lines 177-190. *)
Definition checkCSRF (env : RouteEnv) (request : HttpRequest) : option Response :=
  if decide (CSRF_PROTECTION env = Some "true"%string) then
    let token := headers_get (http_request request) "x-csrf-token" in
    let expectedToken := CSRF_PROTECTION_TOKEN env in
    match if_truthy token with
    | None =>
        Some (mkResponse 403 (ErrorPayload "CSRF token missing or invalid") ∅)
    | Some t =>
        if decide (expectedToken = Some t) then None
        else Some (mkResponse 403 (ErrorPayload "CSRF token missing or invalid") ∅)
    end
  else None.

(** The [catch] block of a handler: the error is logged and answered with
    status 500, without rate-limit headers. *)
Definition catch_error (log message : string) (r : World * (JsError + Response))
  : World * Response :=
  match r with
  | (w, inr response) => (w, response)
  | (w, inl err) =>
      (mkWorld (mkProcess (limiter (process w))
                          (console (process w) ++ [console_error log err]))
               (database w),
       mkResponse 500 (ErrorPayload message) ∅)
  end.

(** The rate-limit check that each handler makes (lines 213-225, 319-331,
    397-409), followed by the rest of its [try] block. *)
Definition rate_limited (env : RouteEnv) (now : Z) (request : HttpRequest) (w : World)
    (rest : RateLimitResult → World → World * (JsError + Response))
  : World * (JsError + Response) :=
  let clientIP := getClientIP (http_request request) in
  let '(p, outcome) :=
    checkRateLimit toUpperCase upstashLimit (limiter_env env) now clientIP
                   RATE_LIMIT_CONFIG (process w) in
  let w := mkWorld p (database w) in
  match outcome with
  | Thrown err => (w, inl err)
  | Returned rateLimitResult =>
      if success rateLimitResult then rest rateLimitResult w
      else (w, inr (mkResponse 429
                      (ErrorPayload "Rate limit exceeded. Please try again later.")
                      (getRateLimitHeaders (remaining rateLimitResult)
                                           (reset rateLimitResult))))
  end.

(** A database operation inside the [try] block. *)
Definition db_call {A : Type} (op : DB → DB * (JsError + A)) (w : World)
    (k : A → World → World * (JsError + Response)) : World * (JsError + Response) :=
  let '(db, r) := op (database w) in
  let w := mkWorld (process w) db in
  match r with
  | inl err => (w, inl err)
  | inr a => k a w
  end.

(** Lines 207-310. *)
Definition POST (env : RouteEnv) (now : Z) (request : HttpRequest) (w : World)
  : World * Response :=
  catch_error "Newsletter subscription error:" "Failed to subscribe. Please try again."
    match checkCSRF env request with
    | Some csrfError => (w, inr csrfError)
    | None =>
        rate_limited env now request w (λ rateLimitResult w,
          let '(db, r) := subscribe request rateLimitResult (database w) in
          (mkWorld (process w) db, r))
    end.

(** Lines 313-392; [today] is the [new Date()] of line 374. *)
Definition DELETE (env : RouteEnv) (now today : Z) (request : HttpRequest) (w : World)
  : World * Response :=
  catch_error "Newsletter unsubscribe error:" "Failed to unsubscribe. Please try again."
    match checkCSRF env request with
    | Some csrfError => (w, inr csrfError)
    | None =>
        rate_limited env now request w (λ rateLimitResult w,
          let limit_headers :=
            getRateLimitHeaders (remaining rateLimitResult) (reset rateLimitResult) in
          match if_truthy (query_email request) with
          | None =>
              (w, inr (mkResponse 400 (ErrorPayload "Email is required") limit_headers))
          | Some email =>
              db_call (findUnique (toLowerCase email)) w (λ subscriber w,
                match subscriber with
                | None =>
                    (w, inr (mkResponse 404 (ErrorPayload "Email not found") limit_headers))
                | Some subscriber =>
                    if decide (subscriber_status subscriber = "unsubscribed"%string) then
                      (w, inr (mkResponse 200 (MessagePayload "Already unsubscribed")
                                          limit_headers))
                    else
                      db_call (update (toLowerCase email)
                                      (mkUpdateData "unsubscribed" today)) w (λ _ w,
                        (w, inr (mkResponse 200
                                   (MessagePayload "Successfully unsubscribed from newsletter")
                                   limit_headers)))
                end)
          end)
    end.

(** Lines 395-452. *)
Definition GET (env : RouteEnv) (now : Z) (request : HttpRequest) (w : World)
  : World * Response :=
  catch_error "Newsletter stats error:" "Failed to fetch stats"
    (rate_limited env now request w (λ rateLimitResult w,
       db_call (count_status "active") w (λ totalSubscribers w,
         db_call (count_status "unsubscribed") w (λ totalUnsubscribed w,
           db_call findMany_recent w (λ recentSubscribers w,
             (w, inr (mkResponse 200
                        (StatsPayload totalSubscribers totalUnsubscribed recentSubscribers)
                        (getRateLimitHeaders (remaining rateLimitResult)
                                             (reset rateLimitResult))))))))).
End Route.

Arguments ErrorPayload {Rows} error.
Arguments MessagePayload {Rows} message.
Arguments StatsPayload {Rows} totalSubscribers totalUnsubscribed recentSubscribers.
Arguments mkResponse {Rows} status payload response_headers.
Arguments status {Rows} r.
Arguments payload {Rows} r.
Arguments response_headers {Rows} r.
Arguments mkWorld {JsError DB} process database.
Arguments process {JsError DB} w.
Arguments database {JsError DB} w.

(** The limiter call of the handlers (lines 214-215, 320-321, 398-399),
    named for the statements below. *)
Definition consult_limiter {JsError DB : Type}
    (toUpperCase : string → string)
    (upstashLimit : string → RateLimitConfig → JsError + RateLimitResult)
    (env : RouteEnv) (now : Z) (request : HttpRequest)
    (w : World (JsError:=JsError) (DB:=DB))
  : Process JsError * Completion JsError :=
  checkRateLimit toUpperCase upstashLimit (limiter_env env) now
    (getClientIP (http_request request)) RATE_LIMIT_CONFIG (process w).

(** Requests arriving one after the other at the route: the framework
    calls the handler exported under the name of the request's method. *)
Inductive Method := MethodPost | MethodDelete | MethodGet.

Record Arrival := mkArrival {
  arrival_method : Method;
  arrival_now : Z;
  arrival_today : Z;
  arrival_request : HttpRequest
}.

Section Serve.
Context {JsError DB Subscriber Rows : Type}.
Variable toUpperCase : string → string.
Variable toLowerCase : string → string.
Variable upstashLimit : string → RateLimitConfig → JsError + RateLimitResult.
Variable subscriber_status : Subscriber → string.
Variable findUnique : string → DB → DB * (JsError + option Subscriber).
Variable update : string → UpdateData → DB → DB * (JsError + unit).
Variable count_status : string → DB → DB * (JsError + Z).
Variable findMany_recent : DB → DB * (JsError + Rows).
Variable subscribe :
  HttpRequest → RateLimitResult → DB → DB * (JsError + Response (Rows:=Rows)).

Definition handle (env : RouteEnv) (a : Arrival)
    (w : World (JsError:=JsError) (DB:=DB)) : World * Response (Rows:=Rows) :=
  match arrival_method a with
  | MethodPost =>
      POST toUpperCase upstashLimit subscribe env (arrival_now a) (arrival_request a) w
  | MethodDelete =>
      DELETE toUpperCase toLowerCase upstashLimit subscriber_status findUnique update
             env (arrival_now a) (arrival_today a) (arrival_request a) w
  | MethodGet =>
      GET toUpperCase upstashLimit count_status findMany_recent
          env (arrival_now a) (arrival_request a) w
  end.

Fixpoint serve (env : RouteEnv) (arrivals : list Arrival)
    (w : World (JsError:=JsError) (DB:=DB))
  : World * list (Response (Rows:=Rows)) :=
  match arrivals with
  | [] => (w, [])
  | a :: rest =>
      let '(w1, response) := handle env a w in
      let '(w2, responses) := serve env rest w1 in
      (w2, response :: responses)
  end.
End Serve.

(** The CSRF check lets the arrival through: [GET] makes none. *)
Definition passes_csrf {Rows : Type} (env : RouteEnv) (a : Arrival) : Prop :=
  arrival_method a = MethodGet ∨
  checkCSRF (Rows:=Rows) env (arrival_request a) = None.

(** *** The shape of the queue while calls of distinct identifiers are in flight

    Fired from an idle machine, call number [i] of a list of calls with
    pairwise distinct identifiers finds no lock and creates three promises:
    the [Promise.resolve()] [prev i], [gate i] and [holder i]. *)

Module Spread.
Import Async.

Definition prev (i : nat) : pid := (3 * i)%nat.
Definition gate (i : nat) : pid := S (3 * i).
Definition holder (i : nat) : pid := S (S (3 * i)).

Definition frame_of (i : nat) (c : Call) : Frame :=
  mkFrame i (call_time c) (call_key c) c.2 (gate i) (holder i).

(** The jobs that the calls numbered from [i] queue when they start. *)
Fixpoint reaction_jobs (i : nat) (calls : list Call) : list Job :=
  match calls with
  | [] => []
  | c :: rest =>
      ReactionJob (OnThen (holder i) (gate i))
        :: ReactionJob (OnAwait (frame_of i c))
        :: reaction_jobs (S i) rest
  end.

(** The lock entries of the calls numbered from [i]. *)
Fixpoint lock_entries (i : nat) (calls : list Call) : list (string * pid) :=
  match calls with
  | [] => []
  | c :: rest => (call_key c, holder i) :: lock_entries (S i) rest
  end.

(** The jobs that make the holders of calls [a], ..., [a + n - 1] follow
    their gates, and the jobs that then fulfil these holders. *)
Definition thenable_jobs (a n : nat) : list Job :=
  (λ i, ResolveThenableJob (holder i) (gate i)) <$> seq a n.

Definition adopt_jobs (a n : nat) : list Job :=
  (λ i, ReactionJob (OnAdopt (holder i))) <$> seq a n.

(** Exactly [n] promise jobs. *)
Fixpoint run_jobs {E : Type}
    (body : Z → string → RateLimitConfig → Limiter → Limiter * Completion E)
    (n : nat) (m : Machine E) : option (Machine E) :=
  match n with
  | O => Some m
  | S n' => m' ← step body m; run_jobs body n' m'
  end.

(** The promises of the first [n] calls, with the gates of the first
    [released] of them fulfilled and the holders of the first [resolved]. *)
Definition promises_of {E : Type} (n released resolved : nat) (m : Machine E) : Prop :=
  ∀ i, (i < n)%nat →
    heap m !! prev i = Some Fulfilled ∧
    heap m !! gate i
      = Some (if decide (i < released)%nat then Fulfilled else Pending []) ∧
    heap m !! holder i
      = Some (if decide (i < resolved)%nat then Fulfilled else Pending []).

End Spread.

(** The machine when the calls [pre] have run their synchronous part, and
    when, of the calls [pre ++ post], those of [pre] have settled. *)
Module SpreadShape.
Import Async Spread.

Record started {E : Type} (pre : list Call) (st : Limiter) (m : Machine E) : Prop :=
  mkStarted {
  started_queue : microtasks m = reaction_jobs 0 pre;
  started_locks : rateLimitLocks m = list_to_map (lock_entries 0 pre);
  started_heap : promises_of (length pre) 0 0 m;
  started_next_pid : next_pid m = (3 * length pre)%nat;
  started_next_call : next_call m = length pre;
  started_limiter : m_limiter m = st;
  started_settled : settled m = []
}.

Record running {E : Type}
    (body : Z → string → RateLimitConfig → Limiter → Limiter * Completion E)
    (pre post : list Call) (st : Limiter) (m : Machine E) : Prop := mkRunning {
  running_queue :
    microtasks m = reaction_jobs (length pre) post ++ thenable_jobs 0 (length pre);
  running_locks : rateLimitLocks m = list_to_map (lock_entries (length pre) post);
  running_heap : promises_of (length pre + length post) (length pre) 0 m;
  running_limiter : m_limiter m = (in_sequence body pre st).1;
  running_settled : settled m = imap (λ i o, (i, o)) (in_sequence body pre st).2
}.

End SpreadShape.

(** * Properties *)

Example scenario_three_then_reject :
  let cfg := mkConfig 3 3600000 in
  let k := "192.168.1.100"%string in
  (run_calls [(1000, k, cfg); (1001, k, cfg); (1002, k, cfg); (1003, k, cfg)] initial).2
  = [mkResult true 2 3601000; mkResult true 1 3601000;
     mkResult true 0 3601000; mkResult false 0 3601000].
Proof. vm_compute. reflexivity. Qed.

(** ** The lazy clean-up *)

Lemma sweep_lookup_Some now store k e :
  sweep now store !! k = Some e ↔ store !! k = Some e ∧ resetTime e >= now.
Proof.
  unfold sweep. rewrite map_lookup_filter_Some. unfold expired. simpl.
  split; intros [? ?]; split; auto; lia.
Qed.

Lemma sweep_lookup_None now store k :
  store !! k = None → sweep now store !! k = None.
Proof.
  intros H. unfold sweep. apply map_lookup_filter_None. left. exact H.
Qed.

Lemma sweep_lookup_live now store k e :
  store !! k = Some e → ¬ expired now e → sweep now store !! k = Some e.
Proof.
  intros H1 H2. apply sweep_lookup_Some. unfold expired in H2. split; [done | lia].
Qed.

Lemma sweep_lookup_expired now store k e :
  store !! k = Some e → expired now e → sweep now store !! k = None.
Proof.
  intros H1 H2. unfold sweep. apply map_lookup_filter_None. right.
  intros e' He'. simpl. rewrite H1 in He'. injection He' as <-. tauto.
Qed.

Lemma lazy_cleanup_lookup_None now st k :
  rateLimitStore st !! k = None → rateLimitStore (lazy_cleanup now st) !! k = None.
Proof.
  intros H. unfold lazy_cleanup. case_decide; simpl; auto using sweep_lookup_None.
Qed.

Lemma lazy_cleanup_lookup_live now st k e :
  rateLimitStore st !! k = Some e → ¬ expired now e →
  rateLimitStore (lazy_cleanup now st) !! k = Some e.
Proof.
  intros H1 H2. unfold lazy_cleanup. case_decide; simpl; auto using sweep_lookup_live.
Qed.

(** An expired entry is either still there or already swept; nothing else
    can happen to it in the clean-up. *)
Lemma lazy_cleanup_lookup_expired now st k e :
  rateLimitStore st !! k = Some e → expired now e →
  rateLimitStore (lazy_cleanup now st) !! k = Some e ∨
  rateLimitStore (lazy_cleanup now st) !! k = None.
Proof.
  intros H1 H2. unfold lazy_cleanup. case_decide; simpl; [right | left; done].
  eauto using sweep_lookup_expired.
Qed.

(** ** The three branches of the window step *)

Lemma window_step_absent now k cfg st :
  rateLimitStore st !! k = None →
  window_step now k cfg st =
    (mkLimiter (<[k := fresh_entry now cfg]> (rateLimitStore st)) (lastCleanup st),
     fresh_result now cfg).
Proof. intros H. unfold window_step. rewrite H. reflexivity. Qed.

Lemma window_step_expired now k cfg st e :
  rateLimitStore st !! k = Some e → expired now e →
  window_step now k cfg st =
    (mkLimiter (<[k := fresh_entry now cfg]> (rateLimitStore st)) (lastCleanup st),
     fresh_result now cfg).
Proof. intros H He. unfold window_step. rewrite H. rewrite decide_True; done. Qed.

Lemma window_step_exhausted now k cfg st e :
  rateLimitStore st !! k = Some e → ¬ expired now e → count e >= maxRequests cfg →
  window_step now k cfg st = (st, mkResult false 0 (resetTime e)).
Proof.
  intros H He Hc. unfold window_step. rewrite H.
  rewrite decide_False by done. rewrite decide_True by done. reflexivity.
Qed.

Lemma window_step_increment now k cfg st e :
  rateLimitStore st !! k = Some e → ¬ expired now e → count e < maxRequests cfg →
  window_step now k cfg st =
    (mkLimiter (<[k := mkEntry (count e + 1) (resetTime e)]> (rateLimitStore st))
               (lastCleanup st),
     mkResult true (maxRequests cfg - (count e + 1)) (resetTime e)).
Proof.
  intros H He Hc. unfold window_step. rewrite H.
  rewrite decide_False by done. rewrite decide_False by lia. reflexivity.
Qed.

(** The window step only ever writes the entry of its own identifier. *)
Lemma window_step_frame now k cfg st k' :
  k ≠ k' →
  rateLimitStore (window_step now k cfg st).1 !! k' = rateLimitStore st !! k'.
Proof.
  intros Hne. unfold window_step.
  destruct (rateLimitStore st !! k) as [e|]; simpl.
  - repeat case_decide; simpl; rewrite ?lookup_insert_ne; done.
  - rewrite lookup_insert_ne; done.
Qed.

Lemma window_step_lastCleanup now k cfg st :
  lastCleanup (window_step now k cfg st).1 = lastCleanup st.
Proof.
  unfold window_step.
  destruct (rateLimitStore st !! k) as [e|]; simpl; repeat case_decide; done.
Qed.

(** ** One call of the local path *)

Lemma checkRateLimit_local_frame_live now k cfg st k' e' :
  k ≠ k' → rateLimitStore st !! k' = Some e' → ¬ expired now e' →
  rateLimitStore (checkRateLimit_local now k cfg st).1 !! k' = Some e'.
Proof.
  intros Hne Hk' Hlive. unfold checkRateLimit_local.
  rewrite window_step_frame by done. by apply lazy_cleanup_lookup_live.
Qed.

Lemma checkRateLimit_local_fresh now k cfg st :
  (rateLimitStore st !! k = None ∨
   ∃ e, rateLimitStore st !! k = Some e ∧ expired now e) →
  (checkRateLimit_local now k cfg st).2 = fresh_result now cfg ∧
  rateLimitStore (checkRateLimit_local now k cfg st).1 !! k = Some (fresh_entry now cfg).
Proof.
  intros H. unfold checkRateLimit_local.
  assert (rateLimitStore (lazy_cleanup now st) !! k = None ∨
          ∃ e, rateLimitStore (lazy_cleanup now st) !! k = Some e ∧ expired now e) as H'.
  { destruct H as [H | (e & H & He)].
    - left. by apply lazy_cleanup_lookup_None.
    - destruct (lazy_cleanup_lookup_expired now st k e H He); eauto. }
  destruct H' as [H' | (e & H' & He)].
  - rewrite window_step_absent by done. simpl. by rewrite lookup_insert_eq.
  - rewrite (window_step_expired _ _ _ _ e) by done. simpl. by rewrite lookup_insert_eq.
Qed.

Lemma checkRateLimit_local_live now k cfg st e :
  rateLimitStore st !! k = Some e → ¬ expired now e →
  (checkRateLimit_local now k cfg st).2 =
    (if decide (count e >= maxRequests cfg)
     then mkResult false 0 (resetTime e)
     else mkResult true (maxRequests cfg - (count e + 1)) (resetTime e)) ∧
  rateLimitStore (checkRateLimit_local now k cfg st).1 !! k =
    Some (if decide (count e >= maxRequests cfg)
          then e else mkEntry (count e + 1) (resetTime e)).
Proof.
  intros H He. unfold checkRateLimit_local.
  pose proof (lazy_cleanup_lookup_live now st k e H He) as H'.
  case_decide.
  - rewrite (window_step_exhausted _ _ _ _ e) by done. simpl. done.
  - rewrite (window_step_increment _ _ _ _ e) by (done || lia). simpl.
    by rewrite lookup_insert_eq.
Qed.

(** C2: a call for an identifier that has no entry in the store is granted
    with [remaining = maxRequests - 1] and [reset = now + windowMs], and it
    leaves the entry [{count: 1, resetTime: now + windowMs}] for that
    identifier. *)
Theorem C2_absent_key_opens_window now identifier config st :
  rateLimitStore st !! identifier = None →
  (checkRateLimit_local now identifier config st).2
    = mkResult true (maxRequests config - 1) (now + windowMs config) ∧
  rateLimitStore (checkRateLimit_local now identifier config st).1 !! identifier
    = Some (mkEntry 1 (now + windowMs config)).
Proof.
  intros H. apply checkRateLimit_local_fresh. by left.
Qed.

Lemma C2_absent_key_witness :
  rateLimitStore initial !! "10.0.0.1"%string = None ∧
  (checkRateLimit_local 1000 "10.0.0.1" (mkConfig 3 3600000) initial).2
    = mkResult true 2 3601000 ∧
  rateLimitStore (checkRateLimit_local 1000 "10.0.0.1" (mkConfig 3 3600000) initial).1
    !! "10.0.0.1"%string = Some (mkEntry 1 3601000).
Proof.
  split; [reflexivity |].
  apply (C2_absent_key_opens_window 1000 "10.0.0.1" (mkConfig 3 3600000) initial).
  reflexivity.
Defined.

(** C3: when the stored window of the identifier is live (the call does not
    come after its [resetTime], so in particular whenever [now] is before
    it) and its count has reached [maxRequests], the call is rejected with
    [remaining = 0] and the stored [resetTime] as [reset], and the entry of
    the identifier is exactly what it was. *)
Theorem C3_exhausted_window_rejects now identifier config st entry :
  rateLimitStore st !! identifier = Some entry →
  now <= resetTime entry →
  count entry >= maxRequests config →
  (checkRateLimit_local now identifier config st).2
    = mkResult false 0 (resetTime entry) ∧
  rateLimitStore (checkRateLimit_local now identifier config st).1 !! identifier
    = Some entry.
Proof.
  intros H Hlive Hc.
  destruct (checkRateLimit_local_live now identifier config st entry H) as [Hr Hs].
  { unfold expired. lia. }
  rewrite Hr, Hs. destruct (decide (count entry >= maxRequests config)); [done | lia].
Qed.

Lemma C3_exhausted_window_witness :
  let st := mkLimiter {[ "10.0.0.1"%string := mkEntry 3 5000 ]} 0 in
  (checkRateLimit_local 4000 "10.0.0.1" (mkConfig 3 3600000) st).2
    = mkResult false 0 5000 ∧
  rateLimitStore (checkRateLimit_local 4000 "10.0.0.1" (mkConfig 3 3600000) st).1
    !! "10.0.0.1"%string = Some (mkEntry 3 5000).
Proof.
  intros st.
  apply (C3_exhausted_window_rejects 4000 "10.0.0.1" (mkConfig 3 3600000) st (mkEntry 3 5000)).
  - reflexivity.
  - simpl. lia.
  - simpl. lia.
Defined.

(** ** Expiry and the boundary [now = resetTime] *)

(** At the exact boundary the stored window is still live for the code
    ([now > entry.resetTime] is false): a call arriving at [resetTime] is
    counted in the old window (first part), or rejected when the old window
    is exhausted (second part), where the statement "resetAt <= now opens a
    fresh window" asks for [success = true], [remaining = maxRequests - 1]
    and a stored count of 1. *)
Lemma C4_boundary_counterexample :
  let cfg := mkConfig 3 60000 in
  let k := "10.0.0.1"%string in
  let st1 := mkLimiter {[ k := mkEntry 1 1000 ]} 0 in
  let st3 := mkLimiter {[ k := mkEntry 3 1000 ]} 0 in
  resetTime (mkEntry 1 1000) <= 1000 ∧
  checkRateLimit_local 1000 k cfg st1
    = (mkLimiter {[ k := mkEntry 2 1000 ]} 0, mkResult true 1 1000) ∧
  (checkRateLimit_local 1000 k cfg st1).2 ≠ mkResult true (3 - 1) (1000 + 60000) ∧
  rateLimitStore (checkRateLimit_local 1000 k cfg st1).1 !! k
    ≠ Some (mkEntry 1 (1000 + 60000)) ∧
  checkRateLimit_local 1000 k cfg st3 = (st3, mkResult false 0 1000).
Proof. vm_compute. repeat split; (reflexivity || discriminate || lia). Qed.

(** C4 (amended): an entry whose [resetTime] is strictly before [now] is
    replaced by a fresh window with count 1 and the call is granted with
    [remaining = maxRequests - 1]; the old count is never carried over.  A
    call arriving exactly at [resetTime] still belongs to the old window: it
    is rejected when the count has reached [maxRequests] and otherwise
    increments the old count, and [reset] stays the old [resetTime]. *)
Theorem C4_expired_window_replaced now identifier config st entry :
  rateLimitStore st !! identifier = Some entry →
  (resetTime entry < now →
     (checkRateLimit_local now identifier config st).2
       = mkResult true (maxRequests config - 1) (now + windowMs config) ∧
     rateLimitStore (checkRateLimit_local now identifier config st).1 !! identifier
       = Some (mkEntry 1 (now + windowMs config))) ∧
  (resetTime entry = now →
     (checkRateLimit_local now identifier config st).2
       = (if decide (count entry >= maxRequests config)
          then mkResult false 0 now
          else mkResult true (maxRequests config - (count entry + 1)) now) ∧
     rateLimitStore (checkRateLimit_local now identifier config st).1 !! identifier
       = Some (if decide (count entry >= maxRequests config)
               then entry else mkEntry (count entry + 1) now)).
Proof.
  intros H. split.
  - intros Hlt. apply checkRateLimit_local_fresh. right. exists entry.
    split; [done | unfold expired; lia].
  - intros Heq.
    destruct (checkRateLimit_local_live now identifier config st entry H) as [Hr Hs].
    { unfold expired. lia. }
    rewrite Hr, Hs, Heq. done.
Qed.

Lemma C4_expired_window_witness :
  let cfg := mkConfig 3 60000 in
  let k := "10.0.0.1"%string in
  let st := mkLimiter {[ k := mkEntry 3 1000 ]} 0 in
  (checkRateLimit_local 1001 k cfg st).2 = mkResult true 2 61001 ∧
  rateLimitStore (checkRateLimit_local 1001 k cfg st).1 !! k = Some (mkEntry 1 61001).
Proof.
  intros cfg k st.
  refine (proj1 (C4_expired_window_replaced 1001 k cfg st (mkEntry 3 1000) _) _).
  - reflexivity.
  - simpl. lia.
Defined.

(** ** The sweep *)

(** The sweep keeps an entry whose [resetTime] equals [now]: the call below
    sweeps (more than five minutes after the last clean-up) at [now = 400000]
    and the entry of ["a"], with [resetTime = 400000 <= now], survives. *)
Lemma C7_sweep_boundary_counterexample :
  let st := mkLimiter {[ "a"%string := mkEntry 1 400000 ]} 0 in
  let st' := (checkRateLimit_local 400000 "b" (mkConfig 3 60000) st).1 in
  cleanup_due 400000 st ∧
  resetTime (mkEntry 1 400000) <= 400000 ∧
  lastCleanup st' = 400000 ∧
  rateLimitStore st' !! "a"%string = Some (mkEntry 1 400000).
Proof. vm_compute. repeat split; (reflexivity || discriminate). Qed.

(** C7 (amended): a call that finds more than five minutes elapsed since
    the last clean-up runs its window step on the swept store; the sweep
    deletes exactly the entries whose [resetTime] is strictly before [now]
    (an entry with [resetTime >= now], in particular [resetTime = now], is
    kept with its value, and nothing else is kept); the call records [now]
    as the time of the last clean-up, and as long as that is the recorded
    time a call at [now'] with [now' - now <= 5 min] does not sweep and does
    not move the recorded time. *)
Theorem C7_sweep_when_due now identifier config st :
  cleanup_due now st →
  checkRateLimit_local now identifier config st
    = window_step now identifier config (mkLimiter (sweep now (rateLimitStore st)) now) ∧
  (∀ k e, sweep now (rateLimitStore st) !! k = Some e
          ↔ rateLimitStore st !! k = Some e ∧ resetTime e >= now) ∧
  (∀ k, sweep now (rateLimitStore st) !! k = None
        ↔ rateLimitStore st !! k = None
          ∨ ∃ e, rateLimitStore st !! k = Some e ∧ resetTime e < now) ∧
  lastCleanup (checkRateLimit_local now identifier config st).1 = now ∧
  (∀ st2 now' identifier' config',
      lastCleanup st2 = now → now' - now <= CLEANUP_INTERVAL →
      checkRateLimit_local now' identifier' config' st2
        = window_step now' identifier' config' st2 ∧
      lastCleanup (checkRateLimit_local now' identifier' config' st2).1 = now).
Proof.
  intros Hdue.
  assert (lazy_cleanup now st = mkLimiter (sweep now (rateLimitStore st)) now) as Hsw.
  { unfold lazy_cleanup. by rewrite decide_True. }
  split; [unfold checkRateLimit_local; by rewrite Hsw |].
  split; [intros k e; apply sweep_lookup_Some |].
  split.
  { intros k. split.
    - intros Hnone. destruct (rateLimitStore st !! k) as [e|] eqn:Hk; [right | by left].
      exists e. split; [done |].
      destruct (decide (expired now e)) as [He | He]; [unfold expired in He; lia |].
      rewrite (sweep_lookup_live _ _ _ _ Hk He) in Hnone. discriminate.
    - intros [Hk | (e & Hk & He)].
      + by apply sweep_lookup_None.
      + apply (sweep_lookup_expired _ _ _ e); [done | unfold expired; lia]. }
  split.
  { unfold checkRateLimit_local. rewrite window_step_lastCleanup, Hsw. done. }
  intros st2 now' identifier' config' Hlast Hclose.
  assert (lazy_cleanup now' st2 = st2) as Hno.
  { unfold lazy_cleanup. rewrite decide_False; [done | unfold cleanup_due; lia]. }
  unfold checkRateLimit_local. rewrite Hno, window_step_lastCleanup. done.
Qed.

Lemma C7_sweep_when_due_witness :
  let st := mkLimiter {[ "a"%string := mkEntry 1 399999; "c"%string := mkEntry 2 400000 ]} 0 in
  cleanup_due 400000 st ∧
  sweep 400000 (rateLimitStore st) !! "a"%string = None ∧
  sweep 400000 (rateLimitStore st) !! "c"%string = Some (mkEntry 2 400000) ∧
  lastCleanup (checkRateLimit_local 400000 "b" (mkConfig 3 60000) st).1 = 400000.
Proof.
  intros st.
  assert (cleanup_due 400000 st) as Hdue by (vm_compute; reflexivity).
  destruct (C7_sweep_when_due 400000 "b" (mkConfig 3 60000) st Hdue)
    as (_ & Hsome & Hnone & Hlast & _).
  split; [exact Hdue |]. split; [| split; [| exact Hlast]].
  - apply Hnone. right. exists (mkEntry 1 399999). split; [reflexivity | simpl; lia].
  - apply Hsome. split; [reflexivity | simpl; lia].
Defined.

(** ** A run of calls inside one window *)

Lemma run_calls_length calls st :
  length (run_calls calls st).2 = length calls.
Proof.
  revert st. induction calls as [|[[now k] cfg] rest IH]; intros st; simpl; [done |].
  destruct (checkRateLimit_local now k cfg st) as [st1 r].
  specialize (IH st1). destruct (run_calls rest st1) as [st2 rs]. simpl in *. lia.
Qed.

Lemma run_calls_cons now k cfg rest st :
  (run_calls ((now, k, cfg) :: rest) st).2
  = (checkRateLimit_local now k cfg st).2
    :: (run_calls rest (checkRateLimit_local now k cfg st).1).2.
Proof.
  simpl. destruct (checkRateLimit_local now k cfg st) as [st1 r]. simpl.
  destruct (run_calls rest st1) as [st2 rs]. reflexivity.
Qed.

(** From a live window holding count [c], the call number [i] (from 0) of a
    run that stays inside the window sees the count [c + i], capped by the
    quota. *)
Lemma run_calls_live_window k cfg ts :
  ∀ st c R (i : nat) r,
    rateLimitStore st !! k = Some (mkEntry c R) →
    Forall (λ t, t <= R) ts →
    (run_calls (same_key_calls k cfg ts) st).2 !! i = Some r →
    reset r = R ∧
    (c + Z.of_nat i < maxRequests cfg →
       success r = true ∧ remaining r = maxRequests cfg - (c + Z.of_nat i + 1)) ∧
    (c + Z.of_nat i >= maxRequests cfg → success r = false ∧ remaining r = 0).
Proof.
  induction ts as [|t ts IH]; intros st c R i r Hk Hts Hi; [done |].
  apply Forall_cons in Hts as [Ht Hts].
  unfold same_key_calls in Hi. simpl map in Hi. rewrite run_calls_cons in Hi.
  destruct (checkRateLimit_local_live t k cfg st (mkEntry c R) Hk) as [Hr Hs].
  { unfold expired. simpl. lia. }
  simpl in Hr, Hs.
  destruct i as [|i]; simpl in Hi.
  - injection Hi as <-. rewrite Hr. case_decide; simpl; repeat split; intros; lia.
  - destruct (decide (c >= maxRequests cfg)) as [Hc | Hc].
    + destruct (IH _ c R i r Hs Hts Hi) as (HR & _ & Hrej).
      split; [done |]. split; intros; [lia | apply Hrej; lia].
    + destruct (IH _ (c + 1) R i r Hs Hts Hi) as (HR & Hok & Hrej).
      split; [done |]. split; intros.
      * destruct Hok as [-> ->]; [lia |]. split; [done | lia].
      * apply Hrej. lia.
Qed.

(** The quota of one window, call by call. *)
Lemma quota_within_window k cfg st t1 ts :
  maxRequests cfg >= 1 →
  opens_window t1 k st →
  Forall (λ t, t <= t1 + windowMs cfg) ts →
  let results := (run_calls (same_key_calls k cfg (t1 :: ts)) st).2 in
  length results = S (length ts) ∧
  ∀ (i : nat) r, results !! i = Some r →
    reset r = t1 + windowMs cfg ∧
    (Z.of_nat i < maxRequests cfg →
       success r = true ∧ remaining r = maxRequests cfg - (Z.of_nat i + 1)) ∧
    (Z.of_nat i >= maxRequests cfg → success r = false ∧ remaining r = 0).
Proof.
  intros Hmax Hopen Hts results. subst results. split.
  { rewrite run_calls_length. unfold same_key_calls. by rewrite length_map. }
  intros i r Hi.
  unfold same_key_calls in Hi. simpl map in Hi. rewrite run_calls_cons in Hi.
  destruct (checkRateLimit_local_fresh t1 k cfg st) as [Hr Hs].
  { unfold opens_window in Hopen.
    destruct (rateLimitStore st !! k) as [e|]; [right; eauto | by left]. }
  destruct i as [|i]; simpl in Hi.
  - injection Hi as <-. rewrite Hr. unfold fresh_result. simpl.
    repeat split; intros; lia.
  - destruct (run_calls_live_window k cfg ts _ 1 (t1 + windowMs cfg) i r Hs Hts Hi)
      as (HR & Hok & Hrej).
    split; [done |]. split; intros.
    + destruct Hok as [-> ->]; [lia |]. split; [done | lia].
    + apply Hrej. lia.
Qed.


(** The statement "the (N+1)-th call is rejected" fails for N below the
    quota: with [maxRequests = 3], after N = 1 call the second call of the
    same window is granted. *)
Lemma C1_next_call_counterexample :
  let cfg := mkConfig 3 3600000 in
  let results := (run_calls (same_key_calls "10.0.0.1" cfg [1000; 1001]) initial).2 in
  1 <= maxRequests cfg ∧
  results = [mkResult true 2 3601000; mkResult true 1 3601000] ∧
  success <$> results !! 1%nat ≠ Some false.
Proof. vm_compute. repeat split; (reflexivity || discriminate). Qed.

(** C1 (amended): for a configuration with [maxRequests >= 1], when the
    first of a run of calls with one identifier opens a window and the other
    calls arrive no later than that window's [resetTime], every call
    returns the window's [reset = t1 + windowMs]; the first [maxRequests]
    calls are granted, call number [n] returning [remaining = maxRequests - n]
    (so a run of N <= maxRequests calls ends at [maxRequests - N]); and every
    call after the [maxRequests]-th is rejected with [remaining = 0]. *)
Theorem C1_quota_within_window k cfg st t1 ts :
  maxRequests cfg >= 1 →
  opens_window t1 k st →
  Forall (λ t, t <= t1 + windowMs cfg) ts →
  let results := (run_calls (same_key_calls k cfg (t1 :: ts)) st).2 in
  length results = S (length ts) ∧
  ∀ (i : nat) r, results !! i = Some r →
    reset r = t1 + windowMs cfg ∧
    (Z.of_nat i < maxRequests cfg →
       success r = true ∧ remaining r = maxRequests cfg - (Z.of_nat i + 1)) ∧
    (Z.of_nat i >= maxRequests cfg → success r = false ∧ remaining r = 0).
Proof. apply quota_within_window. Qed.

Lemma C1_quota_within_window_witness :
  let cfg := mkConfig 3 3600000 in
  let results :=
    (run_calls (same_key_calls "192.168.1.100" cfg [1000; 1001; 1002; 1003]) initial).2 in
  length results = 4%nat ∧
  ∀ (i : nat) r, results !! i = Some r →
    reset r = 3601000 ∧
    (Z.of_nat i < 3 → success r = true ∧ remaining r = 3 - (Z.of_nat i + 1)) ∧
    (Z.of_nat i >= 3 → success r = false ∧ remaining r = 0).
Proof.
  apply (C1_quota_within_window "192.168.1.100" (mkConfig 3 3600000) initial
           1000 [1001; 1002; 1003]).
  - simpl. lia.
  - exact I.
  - repeat constructor; simpl; lia.
Defined.

(** ** Independence of identifiers *)

(** The result of a call and the entry it leaves for its identifier are
    functions of the live entry it finds. *)
Lemma checkRateLimit_local_by_view now k cfg st :
  (checkRateLimit_local now k cfg st).2 =
    match live_entry now k st with
    | None => fresh_result now cfg
    | Some e =>
        if decide (count e >= maxRequests cfg)
        then mkResult false 0 (resetTime e)
        else mkResult true (maxRequests cfg - (count e + 1)) (resetTime e)
    end ∧
  rateLimitStore (checkRateLimit_local now k cfg st).1 !! k =
    Some match live_entry now k st with
         | None => fresh_entry now cfg
         | Some e =>
             if decide (count e >= maxRequests cfg)
             then e else mkEntry (count e + 1) (resetTime e)
         end.
Proof.
  unfold live_entry. destruct (rateLimitStore st !! k) as [e|] eqn:Hk.
  - case_decide as He.
    + apply checkRateLimit_local_fresh. right. eauto.
    + by apply checkRateLimit_local_live.
  - apply checkRateLimit_local_fresh. by left.
Qed.

Lemma same_view_live_entry t0 now k s s' :
  same_view t0 k s s' → t0 <= now → live_entry now k s = live_entry now k s'.
Proof.
  unfold same_view, dead_from, live_entry, expired.
  intros [Heq | [Hd Hd']] Ht; [by rewrite Heq |].
  destruct (rateLimitStore s !! k), (rateLimitStore s' !! k);
    repeat case_decide; (done || lia).
Qed.

(** A call for [k] keeps two indistinguishable states indistinguishable and
    answers the same in both. *)
Lemma same_view_step_same_key t0 now k cfg s s' :
  same_view t0 k s s' → t0 <= now →
  (checkRateLimit_local now k cfg s).2 = (checkRateLimit_local now k cfg s').2 ∧
  same_view now k (checkRateLimit_local now k cfg s).1 (checkRateLimit_local now k cfg s').1.
Proof.
  intros Hv Ht.
  pose proof (same_view_live_entry _ _ _ _ _ Hv Ht) as Hlive.
  destruct (checkRateLimit_local_by_view now k cfg s) as [Hr Hs].
  destruct (checkRateLimit_local_by_view now k cfg s') as [Hr' Hs'].
  split; [by rewrite Hr, Hr', Hlive |].
  left. by rewrite Hs, Hs', Hlive.
Qed.

(** A call for another identifier can at most sweep an entry of [k] that no
    later call could see anyway. *)
Lemma same_view_step_other_key t0 now k1 k cfg s s' :
  k1 ≠ k → same_view t0 k s s' → t0 <= now →
  same_view now k (checkRateLimit_local now k1 cfg s).1 s'.
Proof.
  intros Hne Hv Ht. unfold same_view, dead_from in *.
  unfold checkRateLimit_local. rewrite window_step_frame by done.
  destruct (rateLimitStore s !! k) as [e|] eqn:Hk.
  - destruct (decide (expired now e)) as [He | He].
    + right. unfold expired in He.
      assert (match rateLimitStore s' !! k with
              | Some e' => resetTime e' < now | None => True end) as Hd'.
      { destruct Hv as [<- | [_ Hd']]; [lia |].
        destruct (rateLimitStore s' !! k); [lia | done]. }
      split; [| exact Hd'].
      destruct (lazy_cleanup_lookup_expired now s k e Hk) as [-> | ->];
        [done | lia | done].
    + rewrite (lazy_cleanup_lookup_live now s k e Hk He).
      destruct Hv as [Heq | [Hd Hd']]; [by left |].
      right. split; [lia |]. destruct (rateLimitStore s' !! k); [lia | done].
  - rewrite (lazy_cleanup_lookup_None now s k Hk).
    destruct Hv as [Heq | [Hd Hd']]; [by left |].
    right. split; [done |]. destruct (rateLimitStore s' !! k); [lia | done].
Qed.

Lemma results_of_cons k c calls r rs :
  results_of k (c :: calls) (r :: rs) =
    if decide (call_key c = k) then r :: results_of k calls rs
    else results_of k calls rs.
Proof.
  unfold results_of. simpl. rewrite filter_cons. simpl. by case_decide.
Qed.

Lemma run_calls_projection k calls :
  ∀ t0 s s',
    same_view t0 k s s' → chronological t0 calls →
    results_of k calls (run_calls calls s).2 = (run_calls (calls_of k calls) s').2.
Proof.
  induction calls as [|[[now k1] cfg] rest IH]; intros t0 s s' Hv Hchr; [done |].
  destruct Hchr as [Ht Hchr]. unfold call_time in Ht, Hchr. simpl in Ht, Hchr.
  rewrite run_calls_cons, results_of_cons. unfold calls_of. rewrite filter_cons.
  fold (calls_of k rest). change (call_key (now, k1, cfg)) with k1.
  destruct (decide (k1 = k)) as [Hk | Hk].
  - subst k1. rewrite run_calls_cons.
    destruct (same_view_step_same_key t0 now k cfg s s' Hv Ht) as [-> Hv'].
    f_equal. by apply (IH now).
  - apply (IH now); [| done]. by apply (same_view_step_other_key t0).
Qed.

(** C6: for two distinct identifiers, a call for the first leaves a live
    entry of the second exactly as it was, and in every sequence of calls
    with non-decreasing [Date.now()] (of these and any other identifiers,
    from any limiter state) the results reported to each identifier are the
    results of running that identifier's calls alone. *)
Theorem C6_distinct_keys_independent k1 k2 :
  k1 ≠ k2 →
  (∀ now cfg st e2,
      rateLimitStore st !! k2 = Some e2 → now <= resetTime e2 →
      rateLimitStore (checkRateLimit_local now k1 cfg st).1 !! k2 = Some e2) ∧
  (∀ t0 calls st,
      chronological t0 calls →
      results_of k1 calls (run_calls calls st).2 = (run_calls (calls_of k1 calls) st).2 ∧
      results_of k2 calls (run_calls calls st).2 = (run_calls (calls_of k2 calls) st).2).
Proof.
  intros Hne. split.
  - intros now cfg st e2 Hk2 Hlive.
    apply checkRateLimit_local_frame_live; [done | done | unfold expired; lia].
  - intros t0 calls st Hchr.
    split; apply (run_calls_projection _ calls t0 st st); (done || by left).
Qed.

Lemma C6_distinct_keys_witness :
  let cfg := mkConfig 3 3600000 in
  let a := "10.0.0.1"%string in
  let b := "10.0.0.2"%string in
  let calls := [(1000, a, cfg); (1001, b, cfg); (1002, a, cfg);
                (1003, b, cfg); (1004, a, cfg); (1005, b, cfg)] in
  results_of a calls (run_calls calls initial).2 = (run_calls (calls_of a calls) initial).2 ∧
  results_of b calls (run_calls calls initial).2 = (run_calls (calls_of b calls) initial).2.
Proof.
  intros cfg a b calls.
  assert (a ≠ b) as Hne by (vm_compute; discriminate).
  apply (proj2 (C6_distinct_keys_independent a b Hne) 1000 calls initial).
  unfold calls, chronological, call_time. simpl. lia.
Defined.

Example interleaved_keys_scenario :
  let cfg := mkConfig 3 3600000 in
  let a := "10.0.0.1"%string in
  let b := "10.0.0.2"%string in
  let calls := [(1000, a, cfg); (1001, b, cfg); (1002, a, cfg);
                (1003, b, cfg); (1004, a, cfg); (1005, b, cfg)] in
  remaining <$> results_of a calls (run_calls calls initial).2 = [2; 1; 0] ∧
  remaining <$> results_of b calls (run_calls calls initial).2 = [2; 1; 0].
Proof. vm_compute. split; reflexivity. Qed.

(** ** Failure of the external backend *)

Lemma local_path_spec {JsError : Type} now identifier config (p : Process JsError) :
  local_path now identifier config p =
    (mkProcess (checkRateLimit_local now identifier config (limiter p)).1 (console p),
     Returned (checkRateLimit_local now identifier config (limiter p)).2).
Proof.
  unfold local_path.
  destruct (checkRateLimit_local now identifier config (limiter p)); reflexivity.
Qed.

(** C8: when the mode selects UPSTASH and the attempt on the external
    backend fails with [err]: in production the call throws [err] (after
    logging it as an error) and the limiter state is untouched; outside
    production the call logs a warning and returns what the local algorithm
    returns for the same identifier and configuration, with the local
    algorithm's effect on the limiter state. *)
Theorem C8_backend_failure_policy {JsError : Type}
    (toUpperCase : string → string)
    (upstashLimit : string → RateLimitConfig → JsError + RateLimitResult)
    env now identifier config (p : Process JsError) err :
  mode toUpperCase env = "UPSTASH"%string →
  upstashLimit identifier config = inl err →
  let out := checkRateLimit toUpperCase upstashLimit env now identifier config p in
  (NODE_ENV env = Some "production"%string →
     out.2 = Thrown err ∧
     limiter out.1 = limiter p ∧
     console out.1
       = console p ++ [console_error "Upstash rate limiter failed in production:" err]) ∧
  (NODE_ENV env ≠ Some "production"%string →
     out.2 = Returned (checkRateLimit_local now identifier config (limiter p)).2 ∧
     limiter out.1 = (checkRateLimit_local now identifier config (limiter p)).1 ∧
     ∃ msg, console out.1 = console p ++ [console_warn msg err]).
Proof.
  intros Hmode Hfail out. subst out. unfold checkRateLimit.
  rewrite decide_True by done. rewrite Hfail. split; intros Henv.
  - rewrite decide_True by done. done.
  - rewrite decide_False by done. rewrite local_path_spec. simpl. eauto.
Qed.

Lemma C8_backend_failure_witness :
  let down : string → RateLimitConfig → string + RateLimitResult :=
    λ _ _, inl "ECONNREFUSED"%string in
  let cfg := mkConfig 3 3600000 in
  let p := mkProcess initial [] in
  (checkRateLimit ascii_upper down (mkEnv (Some "upstash"%string) (Some "production"%string))
     1000 "10.0.0.1" cfg p).2 = Thrown "ECONNREFUSED"%string ∧
  (checkRateLimit ascii_upper down (mkEnv (Some "upstash"%string) (Some "development"%string))
     1000 "10.0.0.1" cfg p).2 = Returned (mkResult true 2 3601000).
Proof.
  intros down cfg p. split.
  - refine (proj1 (proj1 (C8_backend_failure_policy ascii_upper down
       (mkEnv (Some "upstash"%string) (Some "production"%string))
       1000 "10.0.0.1" cfg p "ECONNREFUSED"%string _ _) _)); reflexivity.
  - refine (proj1 (proj2 (C8_backend_failure_policy ascii_upper down
       (mkEnv (Some "upstash"%string) (Some "development"%string))
       1000 "10.0.0.1" cfg p "ECONNREFUSED"%string _ _) _));
      [reflexivity | reflexivity | discriminate].
Defined.

(** ** Strings: [split] and [trim] *)

Lemma blank_empty : blank EmptyString.
Proof. constructor. Qed.

Lemma blank_cons c s : blank (String c s) ↔ is_js_whitespace c = true ∧ blank s.
Proof.
  unfold blank. simpl. split.
  - intros H. inversion H; subst. done.
  - intros [Hc Hs]. by constructor.
Qed.

Lemma append_nil_l r : EmptyString +:+ r = r.
Proof. reflexivity. Qed.

Lemma append_cons c l r : String c l +:+ r = String c (l +:+ r).
Proof. reflexivity. Qed.

Ltac simpl_append := rewrite ?append_nil_l, ?append_cons in *.

Lemma blank_app l r : blank (l +:+ r) ↔ blank l ∧ blank r.
Proof.
  induction l as [|c l IH]; simpl_append.
  - split; [intros H; split; [apply blank_empty | done] | by intros [_ H]].
  - rewrite !blank_cons, IH. tauto.
Qed.

Lemma trimStart_blank s : blank s → trimStart s = EmptyString.
Proof.
  induction s as [|c s IH]; [done |]. rewrite blank_cons. intros [Hc Hs].
  simpl. rewrite Hc. auto.
Qed.

Lemma trimStart_app_blank l s : blank l → trimStart (l +:+ s) = trimStart s.
Proof.
  induction l as [|c l IH]; [done |]. rewrite blank_cons. intros [Hc Hl].
  simpl_append. simpl. rewrite Hc. auto.
Qed.

Lemma trimStart_id s :
  (∀ c, first_char s = Some c → is_js_whitespace c = false) → trimStart s = s.
Proof.
  destruct s as [|c s]; [done |]. intros H. simpl. by rewrite (H c).
Qed.

Lemma trimEnd_blank s : blank s → trimEnd s = EmptyString.
Proof.
  induction s as [|c s IH]; [done |]. rewrite blank_cons. intros [Hc Hs].
  simpl. rewrite (IH Hs), Hc. done.
Qed.

Lemma trimEnd_id s :
  (∀ c, last_char s = Some c → is_js_whitespace c = false) → trimEnd s = s.
Proof.
  induction s as [|c s IH]; [done |]. intros H. simpl.
  destruct s as [|c' s].
  - simpl. by rewrite (H c).
  - rewrite IH by (intros c0 Hc0; apply H; exact Hc0). done.
Qed.

Lemma trimEnd_nonempty_id s :
  s ≠ EmptyString →
  (∀ c, last_char s = Some c → is_js_whitespace c = false) →
  trimEnd s ≠ EmptyString.
Proof. intros Hne H. by rewrite trimEnd_id. Qed.

Lemma trimEnd_app_blank s r : blank r → trimEnd (s +:+ r) = trimEnd s.
Proof.
  intros Hr. induction s as [|c s IH]; simpl_append; simpl.
  - by apply trimEnd_blank.
  - by rewrite IH.
Qed.

(** [trimEnd] never touches the first character of what it keeps. *)
Lemma trimEnd_first_char s c :
  first_char (trimEnd s) = Some c → first_char s = Some c.
Proof.
  destruct s as [|c0 s]; [done |]. simpl.
  destruct (trimEnd s); [destruct (is_js_whitespace c0) |]; simpl; congruence.
Qed.

Lemma trimStart_first_char s c :
  first_char (trimStart s) = Some c → is_js_whitespace c = false.
Proof.
  induction s as [|c0 s IH]; [done |]. simpl.
  destruct (is_js_whitespace c0) eqn:Hc0; [done |]. simpl. congruence.
Qed.

Lemma trimEnd_last_char s c :
  last_char (trimEnd s) = Some c → is_js_whitespace c = false.
Proof.
  induction s as [|c0 s IH]; [done |]. simpl.
  destruct (trimEnd s) as [|c1 s1] eqn:Hs.
  - destruct (is_js_whitespace c0) eqn:Hc0; simpl; congruence.
  - simpl. exact IH.
Qed.

Lemma trimStart_suffix s : ∃ l, s = l +:+ trimStart s ∧ blank l.
Proof.
  induction s as [|c s (l & Hl & Hb)].
  - exists EmptyString. split; [done | apply blank_empty].
  - simpl. destruct (is_js_whitespace c) eqn:Hc.
    + exists (String c l). simpl_append. split; [by rewrite <- Hl | by apply blank_cons].
    + exists EmptyString. split; [done | apply blank_empty].
Qed.

Lemma trimEnd_prefix s : ∃ r, s = trimEnd s +:+ r ∧ blank r.
Proof.
  induction s as [|c s (r & Hr & Hb)].
  - exists EmptyString. split; [done | apply blank_empty].
  - simpl. destruct (trimEnd s) as [|c1 s1] eqn:Hs.
    + simpl_append. destruct (is_js_whitespace c) eqn:Hc.
      * exists (String c r). simpl_append. split; [by rewrite <- Hr | by apply blank_cons].
      * exists r. simpl_append. split; [by rewrite <- Hr | done].
    + exists r. simpl_append. split; [| done]. by rewrite <- Hr.
Qed.

(** [trim] computes the trimmed form of the specification... *)
Lemma trim_spec e : trim_of e (trim e).
Proof.
  unfold trim_of, trim.
  destruct (trimStart_suffix e) as (l & Hl & Hbl).
  destruct (trimEnd_prefix (trimStart e)) as (r & Hr & Hbr).
  exists l, r. split; [by rewrite <- Hr | split; [done | split; [done |]]].
  split.
  - intros c Hc. apply (trimStart_first_char e). by apply trimEnd_first_char.
  - apply trimEnd_last_char.
Qed.

(** ... and the trimmed form is unique. *)
Lemma trim_of_unique e t : trim_of e t → trim e = t.
Proof.
  intros (l & r & -> & Hl & Hr & Hfirst & Hlast). unfold trim.
  rewrite trimStart_app_blank by done.
  destruct t as [|c t].
  - simpl_append. rewrite trimStart_blank by done. done.
  - rewrite trimStart_id.
    + rewrite trimEnd_app_blank by done. by apply trimEnd_id.
    + rewrite append_cons. simpl. intros c0 [= <-]. by apply Hfirst.
Qed.

Lemma trim_blank e : blank e → trim e = EmptyString.
Proof. intros H. unfold trim. by rewrite trimStart_blank. Qed.

Lemma trim_not_blank e : ¬ blank e → trim e ≠ EmptyString.
Proof.
  intros Hnb Htrim. apply Hnb.
  destruct (trim_spec e) as (l & r & He & Hl & Hr & _).
  rewrite Htrim in He. rewrite He. simpl_append. apply blank_app. done.
Qed.

Lemma split_on_not_nil sep s : split_on sep s ≠ [].
Proof.
  destruct s as [|c s]; simpl; [done |].
  destruct (Ascii.eqb c sep); [done |]. by destruct (split_on sep s).
Qed.

(** Joining the pieces with the separator gives the string back. *)
Lemma concat_split_on sep s :
  String.concat (String sep EmptyString) (split_on sep s) = s.
Proof.
  induction s as [|c s IH]; [done |]. simpl split_on.
  destruct (Ascii.eqb_spec c sep) as [-> | Hne].
  - pose proof (split_on_not_nil sep s) as Hnil.
    destruct (split_on sep s) as [|h t] eqn:Hs; [done |].
    change (String.concat (String sep EmptyString) (EmptyString :: h :: t))
      with (EmptyString +:+ String sep EmptyString
            +:+ String.concat (String sep EmptyString) (h :: t)).
    rewrite IH. reflexivity.
  - pose proof (split_on_not_nil sep s) as Hnil.
    destruct (split_on sep s) as [|h t] eqn:Hs; [done |].
    destruct t as [|h' t].
    + simpl in *. by rewrite IH.
    + change (String.concat (String sep EmptyString) (String c h :: h' :: t))
        with (String c h +:+ String sep EmptyString
              +:+ String.concat (String sep EmptyString) (h' :: t)).
      change (String.concat (String sep EmptyString) (h :: h' :: t))
        with (h +:+ String sep EmptyString
              +:+ String.concat (String sep EmptyString) (h' :: t)) in IH.
      rewrite append_cons. by rewrite IH.
Qed.

(** No piece contains the separator. *)
Lemma split_on_no_sep sep s :
  Forall (λ e, ¬ In sep (list_ascii_of_string e)) (split_on sep s).
Proof.
  induction s as [|c s IH]; simpl.
  - constructor; [simpl; tauto | constructor].
  - destruct (Ascii.eqb_spec c sep) as [-> | Hne].
    + constructor; [simpl; tauto | done].
    + destruct (split_on sep s) as [|h t].
      * constructor; [| constructor]. simpl. intros [? | []]. done.
      * inversion IH; subst. constructor; [| done].
        simpl. intros [? | ?]; done.
Qed.

Lemma split_on_app sep e s :
  ¬ In sep (list_ascii_of_string e) →
  split_on sep (e +:+ String sep s) = e :: split_on sep s.
Proof.
  induction e as [|c e IH]; intros Hno; simpl_append.
  - simpl. by rewrite Ascii.eqb_refl.
  - simpl in Hno. simpl split_on.
    destruct (Ascii.eqb_spec c sep) as [-> | Hne]; [tauto |].
    rewrite IH by tauto. done.
Qed.

Lemma split_on_no_sep_id sep e :
  ¬ In sep (list_ascii_of_string e) → split_on sep e = [e].
Proof.
  induction e as [|c e IH]; intros Hno; [done |].
  simpl in Hno. simpl.
  destruct (Ascii.eqb_spec c sep) as [-> | Hne]; [tauto |].
  rewrite IH by tauto. done.
Qed.

(** The pieces are the only way to cut a string at its separators. *)
Lemma split_on_concat sep es :
  es ≠ [] →
  Forall (λ e, ¬ In sep (list_ascii_of_string e)) es →
  split_on sep (String.concat (String sep EmptyString) es) = es.
Proof.
  induction es as [|e es IH]; [done |]. intros _ Hall.
  inversion Hall as [|? ? He Hes]; subst.
  destruct es as [|e' es].
  - simpl. by apply split_on_no_sep_id.
  - change (String.concat (String sep EmptyString) (e :: e' :: es))
      with (e +:+ String sep EmptyString
            +:+ String.concat (String sep EmptyString) (e' :: es)).
    rewrite append_cons, append_nil_l.
    rewrite split_on_app by done. rewrite IH; done.
Qed.

Lemma entries_of_split_on f : entries_of f (split_on "," f).
Proof.
  split; [apply split_on_not_nil |]. split; [apply concat_split_on |].
  apply split_on_no_sep.
Qed.

Lemma entries_of_unique f es : entries_of f es → split_on "," f = es.
Proof.
  intros (Hnil & <- & Hno). by apply split_on_concat.
Qed.

(** ** The forwarded-for list *)

Lemma parts_skip_blank pre rest :
  Forall blank pre →
  filter non_empty (trim <$> (pre ++ rest)) = filter non_empty (trim <$> rest).
Proof.
  induction 1 as [|e pre He Hpre IH]; [done |].
  simpl. rewrite filter_cons. rewrite decide_False; [done |].
  unfold non_empty. rewrite trim_blank by done. tauto.
Qed.

Lemma forwarded_parts_first f ip :
  first_forwarded f ip → ∃ rest, forwarded_parts f = ip :: rest.
Proof.
  intros (pre & e & post & Hes & Hpre & He & Htrim).
  unfold forwarded_parts. rewrite (entries_of_unique _ _ Hes).
  rewrite parts_skip_blank by done. simpl. rewrite filter_cons.
  rewrite decide_True by (by apply trim_not_blank).
  rewrite (trim_of_unique _ _ Htrim). eauto.
Qed.

Lemma forwarded_parts_all_blank f : all_blank f → forwarded_parts f = [].
Proof.
  intros (es & Hes & Hblank).
  unfold forwarded_parts. rewrite (entries_of_unique _ _ Hes).
  rewrite <- (app_nil_r es). by rewrite parts_skip_blank.
Qed.

(** Every header value is in exactly one of the two cases. *)
Lemma forwarded_cases f : (∃ ip, first_forwarded f ip) ∨ all_blank f.
Proof.
  pose proof (entries_of_split_on f) as Hes.
  assert (∀ es, (∃ pre e post, es = pre ++ e :: post ∧ Forall blank pre ∧ ¬ blank e)
                ∨ Forall blank es) as Hfind.
  { induction es as [|e es IH]; [by right |].
    assert (Decision (blank e)) as [He | He] by (unfold blank; apply _).
    - destruct IH as [(pre & e' & post & -> & Hpre & He') | Hall].
      + left. exists (e :: pre), e', post. split; [done |]. split; [by constructor | done].
      + right. by constructor.
    - left. exists [], e, es. split; [done |]. split; [constructor | done]. }
  destruct (Hfind (split_on "," f)) as [(pre & e & post & Heq & Hpre & He) | Hall].
  - left. exists (trim e), pre, e, post. rewrite <- Heq.
    split; [done |]. split; [done |]. split; [done | apply trim_spec].
  - right. by exists (split_on "," f).
Qed.

Lemma forwarded_cases_exclusive f ip : first_forwarded f ip → ¬ all_blank f.
Proof.
  intros H1 H2. destruct (forwarded_parts_first _ _ H1) as [rest Hrest].
  rewrite (forwarded_parts_all_blank _ H2) in Hrest. discriminate.
Qed.

(** ** [getClientIP] *)

Lemma if_truthy_usable v s : usable v s → if_truthy v = Some s.
Proof. intros [-> Hs]. simpl. by rewrite decide_False. Qed.

Lemma if_truthy_unusable v : unusable v → if_truthy v = None.
Proof. by intros [-> | ->]. Qed.

(** What the function answers from the forwarded-for header alone. *)
Lemma if_truthy_forwarded (v : option string) :
  (∀ f ip, v = Some f → first_forwarded f ip →
     match if_truthy v with
     | Some forwarded =>
         match forwarded_parts forwarded with part :: _ => part | [] => FALLBACK_IP end
     | None => FALLBACK_IP
     end = ip) ∧
  (v = None ∨ (∃ f, v = Some f ∧ all_blank f) →
     match if_truthy v with
     | Some forwarded =>
         match forwarded_parts forwarded with part :: _ => part | [] => FALLBACK_IP end
     | None => FALLBACK_IP
     end = FALLBACK_IP).
Proof.
  split.
  - intros f ip -> Hfirst. destruct (forwarded_parts_first _ _ Hfirst) as [rest Hrest].
    simpl. case_decide as Hf.
    + subst f. vm_compute in Hrest. discriminate.
    + by rewrite Hrest.
  - intros [-> | (f & -> & Hblank)]; [done |].
    simpl. case_decide; [done |]. by rewrite forwarded_parts_all_blank.
Qed.

(** The order in which the three headers are consulted. *)
Lemma getClientIP_precedence request :
  (∀ v, usable (headers_get request "cf-connecting-ip") v → getClientIP request = v) ∧
  (unusable (headers_get request "cf-connecting-ip") →
     (∀ v, usable (headers_get request "x-real-ip") v → getClientIP request = v) ∧
     (unusable (headers_get request "x-real-ip") →
        (∀ f ip, headers_get request "x-forwarded-for" = Some f →
                 first_forwarded f ip → getClientIP request = ip) ∧
        (headers_get request "x-forwarded-for" = None ∨
         (∃ f, headers_get request "x-forwarded-for" = Some f ∧ all_blank f) →
         getClientIP request = "127.0.0.1"%string))).
Proof.
  unfold getClientIP. split.
  - intros v Hv. by rewrite (if_truthy_usable _ _ Hv).
  - intros Hcf. rewrite (if_truthy_unusable _ Hcf). split.
    + intros v Hv. by rewrite (if_truthy_usable _ _ Hv).
    + intros Hreal. rewrite (if_truthy_unusable _ Hreal).
      apply if_truthy_forwarded.
Qed.


(** A header that is present with an empty value does not win: the request
    below carries [cf-connecting-ip] (empty) and [x-real-ip], and the
    function returns the value of [x-real-ip], not that of the present
    [cf-connecting-ip].  Likewise the first comma-separated entry of
    [x-forwarded-for] is passed over when it is empty. *)
Lemma C9_present_but_empty_counterexample :
  let r1 := mkRequest {[ "cf-connecting-ip"%string := ""%string;
                         "x-real-ip"%string := "203.0.113.7"%string ]} in
  let r2 := mkRequest {[ "x-forwarded-for"%string := ",198.51.100.4"%string ]} in
  headers_get r1 "cf-connecting-ip" = Some ""%string ∧
  getClientIP r1 = "203.0.113.7"%string ∧
  getClientIP r1 ≠ ""%string ∧
  split_on "," ",198.51.100.4" = [""%string; "198.51.100.4"%string] ∧
  getClientIP r2 = "198.51.100.4"%string ∧
  getClientIP r2 ≠ ""%string.
Proof. vm_compute. repeat split; (reflexivity || discriminate). Qed.

(** C9 (amended): [getClientIP] returns one string by this precedence: the
    value of [cf-connecting-ip] when it is present and not empty; else the
    value of [x-real-ip] when it is present and not empty; else, when
    [x-forwarded-for] is present, the first of its comma-separated entries
    that is not whitespace-only, trimmed; else (header absent, or no such
    entry) the fixed string "127.0.0.1". *)
Theorem C9_identity_precedence request :
  (∀ v, usable (headers_get request "cf-connecting-ip") v → getClientIP request = v) ∧
  (unusable (headers_get request "cf-connecting-ip") →
     (∀ v, usable (headers_get request "x-real-ip") v → getClientIP request = v) ∧
     (unusable (headers_get request "x-real-ip") →
        (∀ f ip, headers_get request "x-forwarded-for" = Some f →
                 first_forwarded f ip → getClientIP request = ip) ∧
        (headers_get request "x-forwarded-for" = None ∨
         (∃ f, headers_get request "x-forwarded-for" = Some f ∧ all_blank f) →
         getClientIP request = "127.0.0.1"%string))).
Proof. apply getClientIP_precedence. Qed.

Lemma C9_identity_precedence_witness :
  let r := mkRequest {[ "cf-connecting-ip"%string := "192.0.2.1"%string;
                        "x-real-ip"%string := "203.0.113.7"%string;
                        "x-forwarded-for"%string := "198.51.100.4, 10.0.0.1"%string ]} in
  getClientIP r = "192.0.2.1"%string.
Proof.
  intros r. apply (proj1 (C9_identity_precedence r)).
  split; [reflexivity | discriminate].
Defined.

(** C10: with [cf-connecting-ip] and [x-real-ip] both absent, the function
    cuts [x-forwarded-for] at its commas ([split_on] yields its entries),
    trims each entry ([trim] yields the entry without its leading and
    trailing whitespace) and returns the first entry that is not empty after
    trimming, passing over the empty and whitespace-only entries before it;
    when the header is absent or every entry is whitespace-only it returns
    "127.0.0.1".  Every header value is in one of these cases. *)
Theorem C10_forwarded_for request :
  headers_get request "cf-connecting-ip" = None →
  headers_get request "x-real-ip" = None →
  (headers_get request "x-forwarded-for" = None →
     getClientIP request = "127.0.0.1"%string) ∧
  (∀ f, headers_get request "x-forwarded-for" = Some f →
     entries_of f (split_on "," f) ∧
     Forall (λ e, trim_of e (trim e) ∧ (trim e = EmptyString ↔ blank e)) (split_on "," f) ∧
     (∀ pre e post,
        split_on "," f = pre ++ e :: post →
        Forall (λ x, trim x = EmptyString) pre → trim e ≠ EmptyString →
        getClientIP request = trim e) ∧
     (Forall (λ x, trim x = EmptyString) (split_on "," f) →
        getClientIP request = "127.0.0.1"%string) ∧
     (∀ ip, first_forwarded f ip → getClientIP request = ip) ∧
     (all_blank f → getClientIP request = "127.0.0.1"%string) ∧
     ((∃ ip, first_forwarded f ip) ∨ all_blank f)).
Proof.
  intros Hcf Hreal.
  assert (∀ e, trim e = EmptyString ↔ blank e) as Hblank.
  { intros e. split; [| apply trim_blank].
    intros He. assert (Decision (blank e)) as [Hb | Hb] by (unfold blank; apply _);
      [done | by apply trim_not_blank in Hb]. }
  assert (∀ l, Forall (λ x, trim x = EmptyString) l ↔ Forall blank l) as Hblanks.
  { intros l. apply Forall_iff. intros x. apply Hblank. }
  destruct (getClientIP_precedence request) as [_ Hrest].
  destruct Hrest as [_ Hrest]; [by left |].
  destruct Hrest as [Hfirst Hnone]; [by left |].
  split; [intros Hx; apply Hnone; by left |].
  intros f Hf.
  split; [apply entries_of_split_on |].
  split; [apply Forall_forall; intros e _; split; [apply trim_spec | apply Hblank] |].
  split.
  { intros pre e post Hsplit Hpre He. apply (Hfirst f); [done |].
    exists pre, e, post. rewrite <- Hsplit.
    split; [apply entries_of_split_on |].
    split; [by apply Hblanks |].
    split; [by rewrite <- Hblank | apply trim_spec]. }
  split.
  { intros Hall. apply Hnone. right. exists f. split; [done |].
    exists (split_on "," f). split; [apply entries_of_split_on | by apply Hblanks]. }
  split; [intros ip; by apply Hfirst |].
  split; [intros Hall; apply Hnone; right; eauto |].
  apply forwarded_cases.
Qed.

Lemma C10_forwarded_for_witness :
  let r := mkRequest {[ "x-forwarded-for"%string := " , 198.51.100.4 ,10.0.0.1"%string ]} in
  getClientIP r = "198.51.100.4"%string.
Proof.
  intros r.
  destruct (C10_forwarded_for r) as [_ Hf]; [reflexivity | reflexivity |].
  destruct (Hf " , 198.51.100.4 ,10.0.0.1"%string) as (_ & _ & Hfirst & _); [reflexivity |].
  apply (Hfirst [" "%string] " 198.51.100.4 "%string ["10.0.0.1"%string]).
  - reflexivity.
  - repeat constructor.
  - discriminate.
Defined.

(** ** Calls in flight together *)

Module QueueFacts.
Import Async Queue.

Section WithBody.
Context {E : Type}.
Variable body : Z → string → RateLimitConfig → Limiter → Limiter * Completion E.
Variable key : string.
Variable calls : list Call.
Variable st : Limiter.
Hypothesis same_key : Forall (λ c, call_key c = key) calls.

Lemma call_at_key i c : calls !! i = Some c → call_key c = key.
Proof.
  intros Hi. rewrite Forall_forall in same_key. apply same_key.
  by apply list_elem_of_lookup_2 in Hi.
Qed.

Lemma waiters_started i c started :
  calls !! i = Some c → (i < started)%nat → waiters calls started i = reactions_of i c.
Proof. intros Hi Hlt. unfold waiters. rewrite Hi. by rewrite decide_True. Qed.

Lemma waiters_not_started i started :
  (started ≤ i)%nat → waiters calls started i = [].
Proof.
  intros Hle. unfold waiters. destruct (calls !! i); [| done].
  rewrite decide_False; [done | lia].
Qed.

Lemma waiters_mono i started :
  (i < started)%nat → waiters calls (S started) i = waiters calls started i.
Proof.
  intros Hlt. unfold waiters. destruct (calls !! i); [| done].
  rewrite !decide_True; (done || lia).
Qed.

(** The first call fired on an idle machine. *)
Lemma start_first c :
  calls !! 0%nat = Some c →
  ∃ m, start_call c (idle st) = Some m ∧ shape body key calls st 1 0 m.
Proof.
  intros Hc. pose proof (call_at_key _ _ Hc) as Hkey.
  destruct c as [[now k] cfg]. unfold call_key in Hkey. simpl in Hkey. subst k.
  eexists. split; [reflexivity |].
  split; simpl.
  - done.
  - intros i Hi. lia.
  - intros i Hi. assert (i = 0%nat) as -> by lia.
    rewrite waiters_not_started by lia. done.
  - rewrite (waiters_started _ _ _ Hc) by lia. done.
  - by rewrite insert_empty.
  - done.
  - done.
  - done.
  - done.
Qed.

(** A further call fired while the earlier ones are still waiting. *)
Lemma start_next j c m :
  (1 ≤ j)%nat → calls !! j = Some c →
  shape body key calls st j 0 m →
  ∃ m', start_call c m = Some m' ∧ shape body key calls st (S j) 0 m'.
Proof.
  intros Hj Hc [Hfirst Hdone Hwait Hqueue Hlocks Hpid Hcall Hlim Hset].
  pose proof (call_at_key _ _ Hc) as Hkey.
  destruct c as [[now k] cfg]. unfold call_key in Hkey. simpl in Hkey. subst k.
  destruct m as [lim locks hp np nc q done]. simpl in *.
  rewrite decide_True in Hqueue by lia. rewrite decide_True in Hlocks by lia.
  subst locks np nc.
  destruct (Hwait (j - 1)%nat) as [_ Hprev]; [lia |].
  replace (S (j - 1)) with j in Hprev by lia.
  rewrite waiters_not_started in Hprev by lia.
  unfold start_call. simpl. rewrite lookup_singleton_eq.
  unfold new_promise. simpl.
  unfold subscribe at 2. simpl.
  rewrite !lookup_insert_ne by (unfold holder; lia). rewrite Hprev. simpl.
  unfold subscribe. simpl. rewrite lookup_insert_eq. simpl.
  eexists. split; [reflexivity |].
  split; simpl.
  - rewrite !lookup_insert_ne by (unfold holder; lia). done.
  - intros i Hi. lia.
  - intros i Hi.
    destruct (decide (i = j)) as [-> | Hne].
    + rewrite waiters_not_started by lia.
      split.
      * rewrite !lookup_insert_ne by (unfold holder, gate; lia).
        unfold gate. by rewrite lookup_insert_eq.
      * rewrite !lookup_insert_ne by (unfold holder; lia).
        unfold holder. by rewrite lookup_insert_eq.
    + destruct (Hwait i) as [Hg Hh]; [lia |].
      destruct (decide (i = (j - 1)%nat)) as [-> | Hne'].
      * replace (S (j - 1)) with j by lia.
        rewrite (waiters_started _ _ _ Hc) by lia.
        split.
        -- rewrite !lookup_insert_ne by (unfold holder, gate; lia). done.
        -- rewrite insert_insert_eq, lookup_insert_eq. done.
      * rewrite waiters_mono by lia.
        rewrite !lookup_insert_ne by (unfold holder, gate; lia). done.
  - rewrite Hqueue. rewrite waiters_mono by lia. done.
  - rewrite insert_singleton_eq. f_equal. unfold holder. lia.
  - lia.
  - done.
  - done.
  - done.
Qed.

(** All the calls fired together, before any microtask runs. *)
Lemma start_all_shape :
  calls ≠ [] →
  ∃ m, start_all calls (idle st) = Some m ∧
       shape body key calls st (length calls) 0 m.
Proof.
  intros Hne.
  assert (∀ n j m, shape body key calls st j 0 m → (1 ≤ j)%nat →
                   (j + n = length calls)%nat →
                   ∃ m', start_all (drop j calls) m = Some m' ∧
                         shape body key calls st (length calls) 0 m') as Hrest.
  { induction n as [|n IH]; intros j m Hm Hj Hlen.
    - rewrite drop_ge by lia. simpl. exists m. split; [done |].
      by replace (length calls) with j by lia.
    - destruct (lookup_lt_is_Some_2 calls j) as [c Hc]; [lia |].
      rewrite (drop_S _ _ _ Hc). simpl.
      destruct (start_next j c m Hj Hc Hm) as (m1 & -> & Hm1). simpl.
      apply (IH (S j) m1 Hm1); lia. }
  assert (0 < length calls)%nat as Hlen by (destruct calls; [done | simpl; lia]).
  destruct (lookup_lt_is_Some_2 calls 0%nat Hlen) as [c Hc].
  destruct (start_first c Hc) as (m1 & Hstart & Hm1).
  destruct (Hrest (length calls - 1)%nat 1%nat m1 Hm1) as (m' & Hm' & Hshape);
    [lia | lia |].
  exists m'. split; [| done].
  rewrite <- (drop_0 calls) at 1. rewrite (drop_S _ _ _ Hc). simpl.
  rewrite Hstart. simpl. exact Hm'.
Qed.

Lemma in_sequence_length l s : length (in_sequence body l s).2 = length l.
Proof.
  revert s. induction l as [|[[now k] cfg] l IH]; intros s; simpl; [done |].
  destruct (body now k cfg s) as [s1 o]. specialize (IH s1).
  destruct (in_sequence body l s1). simpl in *. lia.
Qed.

Lemma in_sequence_snoc l now k cfg s :
  in_sequence body (l ++ [(now, k, cfg)]) s =
    ((body now k cfg (in_sequence body l s).1).1,
     (in_sequence body l s).2 ++ [(body now k cfg (in_sequence body l s).1).2]).
Proof.
  revert s. induction l as [|[[now' k'] cfg'] l IH]; intros s; simpl.
  - by destruct (body now k cfg s).
  - destruct (body now' k' cfg' s) as [s1 o]. rewrite IH.
    by destruct (in_sequence body l s1).
Qed.

Lemma run_until_idle_step fuel (m m' : Machine E) :
  microtasks m ≠ [] → step body m = Some m' →
  run_until_idle body (S fuel) m = run_until_idle body fuel m'.
Proof.
  intros Hq Hstep. simpl. destruct (microtasks m); [done |]. by rewrite Hstep.
Qed.

(** One turn of the queue: the four promise jobs that let call [k] run its
    critical section and hand the queue over to call [k + 1]. *)
Lemma turn k m :
  (k < length calls)%nat →
  shape body key calls st (length calls) k m →
  ∃ m', shape body key calls st (length calls) (S k) m' ∧
        ∀ fuel, run_until_idle body (4 + fuel) m = run_until_idle body fuel m'.
Proof.
  intros Hk [Hfirst Hdone Hwait Hqueue Hlocks Hpid Hcall Hlim Hset].
  destruct (lookup_lt_is_Some_2 calls k Hk) as [c Hc].
  pose proof (call_at_key _ _ Hc) as Hkey.
  destruct (Hwait k) as [Hgate Hholder]; [lia |].
  destruct m as [lim locks hp np nc q done]. simpl in Hfirst, Hdone, Hwait, Hqueue,
    Hlocks, Hpid, Hcall, Hlim, Hset, Hgate, Hholder.
  rewrite decide_True in Hqueue by lia. rewrite decide_True in Hlocks by lia.
  rewrite (waiters_started _ _ _ Hc) in Hqueue by lia.
  destruct (body (call_time c) key c.2 lim) as [lim' o] eqn:Hbody.
  set (locks' := if decide (S k < length calls)%nat
                 then ({[ key := holder (length calls - 1) ]} : gmap string pid)
                 else ∅).
  set (hp' := <[holder k := Fulfilled]> (<[gate k := Fulfilled]> hp)).
  exists (mkMachine lim' locks' hp' np nc
            (ReactionJob <$> waiters calls (length calls) (S k))
            (done ++ [(k, o)])).
  split.
  - split; simpl.
    + unfold hp'. rewrite !lookup_insert_ne by (unfold holder, gate; lia). done.
    + intros i Hi. unfold hp'.
      destruct (decide (i = k)) as [-> | Hne].
      * split; [| by rewrite lookup_insert_eq].
        rewrite lookup_insert_ne by (unfold holder, gate; lia).
        by rewrite lookup_insert_eq.
      * rewrite !lookup_insert_ne by (unfold holder, gate; lia).
        apply Hdone. lia.
    + intros i Hi. unfold hp'.
      rewrite !lookup_insert_ne by (unfold holder, gate; lia).
      apply Hwait. lia.
    + case_decide as Hlt; [done |]. rewrite waiters_not_started by lia. done.
    + done.
    + done.
    + done.
    + rewrite (take_S_r _ _ _ Hc). destruct c as [[now k'] cfg].
      unfold call_key in Hkey. simpl in Hkey. subst k'.
      rewrite in_sequence_snoc. simpl. rewrite <- Hlim.
      unfold call_time in Hbody. simpl in Hbody. by rewrite Hbody.
    + rewrite (take_S_r _ _ _ Hc). destruct c as [[now k'] cfg].
      unfold call_key in Hkey. simpl in Hkey. subst k'.
      rewrite in_sequence_snoc. simpl. rewrite <- Hlim.
      unfold call_time in Hbody. simpl in Hbody. rewrite Hbody. simpl.
      rewrite imap_app. simpl. rewrite <- Hset. rewrite Nat.add_0_r.
      rewrite in_sequence_length, length_take_le by lia. done.
  - intros fuel. subst q.
    change (4 + fuel)%nat with (S (S (S (S fuel)))).
    set (fr := frame_of k c).
    set (hp1 := <[gate k := Fulfilled]> hp).
    set (m1 := mkMachine lim locks hp np nc
                 [ReactionJob (OnAwait fr); ResolveThenableJob (holder k) (gate k)] done).
    set (m2 := mkMachine lim' locks' hp1 np nc
                 [ResolveThenableJob (holder k) (gate k)] (done ++ [(k, o)])).
    set (m3 := mkMachine lim' locks' hp1 np nc
                 [ReactionJob (OnAdopt (holder k))] (done ++ [(k, o)])).
    (* job 1: the callback of [then] returns the gate *)
    rewrite (run_until_idle_step _ _ m1) by done.
    (* job 2: the continuation of [await prev], with its [finally] *)
    rewrite (run_until_idle_step _ _ m2); [| done |].
    2:{ unfold step, m1, exec, resume. simpl. rewrite Hkey, Hbody.
        unfold fulfil. simpl. rewrite Hgate. simpl.
        rewrite Hlocks, lookup_singleton_eq. unfold m2, locks'.
        destruct (decide (S k < length calls)%nat) as [Hlt | Hlast].
        - rewrite decide_False; [done |]. unfold holder. intros [= Heq]. lia.
        - rewrite decide_True by (f_equal; f_equal; lia).
          unfold set_locks. simpl. by rewrite delete_singleton_eq. }
    (* job 3: the holder follows the gate, which is fulfilled by now *)
    rewrite (run_until_idle_step _ _ m3); [| done |].
    2:{ unfold step, m2, exec, subscribe. simpl. unfold hp1.
        by rewrite lookup_insert_eq. }
    (* job 4: the holder is fulfilled and wakes the next call *)
    rewrite (run_until_idle_step _ _
               (mkMachine lim' locks' hp' np nc
                  (ReactionJob <$> waiters calls (length calls) (S k))
                  (done ++ [(k, o)]))); [done | done |].
    unfold step, m3, exec, fulfil. simpl. unfold hp1.
    rewrite lookup_insert_ne by (unfold holder, gate; lia).
    rewrite Hholder. done.
Qed.

(** The queue drains: one turn per call that has not settled yet. *)
Lemma drain n : ∀ k m,
  (k + n = length calls)%nat →
  shape body key calls st (length calls) k m →
  ∃ m', run_until_idle body (4 * n) m = Some m' ∧
        shape body key calls st (length calls) (length calls) m'.
Proof.
  induction n as [|n IH]; intros k m Hlen Hm.
  - assert (k = length calls) as -> by lia. exists m. split; [| done].
    destruct Hm as [_ _ _ Hq _ _ _ _ _].
    rewrite decide_False in Hq by lia. simpl. by rewrite Hq.
  - destruct (turn k m) as (m1 & Hm1 & Hrun); [lia | done |].
    destruct (IH (S k) m1) as (m' & Hm' & Hshape); [lia | done |].
    exists m'. split; [| done].
    replace (4 * S n)%nat with (4 + 4 * n)%nat by lia. by rewrite Hrun.
Qed.

(** Calls of one identifier fired together on an idle machine: the queue
    empties within four jobs per call, every gate and holder ends fulfilled,
    the lock map ends empty, and the calls have settled in the order in which
    they were fired, each with the outcome it has when the calls run one
    after the other. *)
Lemma fire_same_key :
  ∃ m, fire body (4 * length calls) calls st = Some m ∧
       microtasks m = [] ∧
       rateLimitLocks m = ∅ ∧
       (∀ i, (i < length calls)%nat →
          heap m !! gate i = Some Fulfilled ∧ heap m !! holder i = Some Fulfilled) ∧
       m_limiter m = (in_sequence body calls st).1 ∧
       settled m = imap (λ i o, (i, o)) (in_sequence body calls st).2.
Proof.
  destruct (decide (calls = [])) as [Hnil | Hne].
  - exists (idle st). rewrite Hnil. simpl. split; [done |].
    split; [done |]. split; [done |]. split; [intros i Hi; lia | done].
  - destruct (start_all_shape Hne) as (m0 & Hstart & Hm0).
    destruct (drain (length calls) 0%nat m0) as (m & Hrun & Hm); [lia | done |].
    exists m. unfold fire. rewrite Hstart. simpl. split; [done |].
    destruct Hm as [_ Hdone _ Hq Hlocks _ _ Hlim Hset].
    rewrite decide_False in Hq by lia. rewrite decide_False in Hlocks by lia.
    rewrite firstn_all in Hlim, Hset. done.
Qed.
End WithBody.

Lemma in_sequence_critical_section {E : Type} calls st :
  in_sequence (E:=E) critical_section calls st =
    ((run_calls calls st).1, Returned <$> (run_calls calls st).2).
Proof.
  revert st. induction calls as [|[[now k] cfg] rest IH]; intros st; simpl; [done |].
  unfold critical_section at 1.
  destruct (checkRateLimit_local now k cfg st) as [st1 r]. rewrite IH.
  by destruct (run_calls rest st1).
Qed.

Lemma same_key_calls_key k cfg ts :
  Forall (λ c, call_key c = k) (same_key_calls k cfg ts).
Proof. unfold same_key_calls. apply Forall_forall. intros c Hc.
  apply list_elem_of_fmap in Hc as (t & -> & _). done.
Qed.
End QueueFacts.

(** A list in which only the first [n] positions can satisfy [P] has at
    most [n] elements that do. *)
Lemma filter_length_bound {A} (P : A → Prop) `{∀ x, Decision (P x)} (l : list A) :
  ∀ n : nat, (∀ i x, l !! i = Some x → P x → (i < n)%nat) →
             (length (filter P l) ≤ n)%nat.
Proof.
  induction l as [|x l IH]; intros n Hn; simpl; [lia |].
  rewrite filter_cons. case_decide as Hx.
  - pose proof (Hn 0%nat x eq_refl Hx) as Hpos.
    destruct n as [|n]; [lia |]. simpl.
    specialize (IH n). apply le_n_S, IH.
    intros i y Hi Hy. specialize (Hn (S i) y Hi Hy). lia.
  - destruct n as [|n].
    + specialize (IH 0%nat). etrans; [apply IH | lia].
      intros i y Hi Hy. specialize (Hn (S i) y Hi Hy). lia.
    + specialize (IH n). etrans; [apply IH | lia].
      intros i y Hi Hy. specialize (Hn (S i) y Hi Hy). lia.
Qed.

(** A call that is alone in flight: the machine gives it what
    [checkRateLimit_local] computes and ends idle again, lock map empty. *)
Lemma single_call_on_idle_machine {E : Type} now k cfg st :
  ∃ m, Async.fire (E:=E) Async.critical_section 4 [(now, k, cfg)] st = Some m ∧
       Async.microtasks m = [] ∧
       Async.rateLimitLocks m = ∅ ∧
       Async.m_limiter m = (checkRateLimit_local now k cfg st).1 ∧
       Async.settled m = [(0%nat, Returned (checkRateLimit_local now k cfg st).2)].
Proof.
  destruct (QueueFacts.fire_same_key (E:=E) Async.critical_section k [(now, k, cfg)] st)
    as (m & Hfire & Hq & Hlocks & _ & Hlim & Hset).
  { by repeat constructor. }
  exists m. split; [exact Hfire |]. split; [done |]. split; [done |].
  rewrite QueueFacts.in_sequence_critical_section in Hlim, Hset.
  rewrite run_calls_cons in Hset. simpl in Hlim, Hset.
  destruct (checkRateLimit_local now k cfg st) as [st1 r]. simpl in *. done.
Qed.

(** With a quota of one, two calls fired together return [remaining = 0]
    twice: the granted call and the rejected call report the same value, so
    the returned values are not strictly decreasing. *)
Lemma C5_rejected_calls_repeat_zero_counterexample :
  let cfg := mkConfig 1 1000 in
  let calls := same_key_calls "10.0.0.1" cfg [10; 10] in
  Async.settled <$> Async.fire (E:=unit) Async.critical_section 8 calls initial
    = Some [(0%nat, Returned (mkResult true 0 1010));
            (1%nat, Returned (mkResult false 0 1010))] ∧
  ¬ (remaining (mkResult false 0 1010) < remaining (mkResult true 0 1010)).
Proof. vm_compute. split; [reflexivity | intros H; discriminate H]. Qed.

(** C5 (amended): calls to [checkRateLimit] with one identifier that are
    fired together on an idle limiter (local mode):
    - the microtask queue empties within four promise jobs per call, and the
      calls settle in the order in which they were fired, call [i] with the
      result it has when the calls run one after the other (no decision is
      taken on a stale entry);
    - when the calls share one configuration with [maxRequests >= 1], the
      first opens a window and the others fall inside it, the first
      [maxRequests] calls are granted with [remaining] equal to
      [maxRequests - 1], [maxRequests - 2], ... (no value twice, none left
      out), every later call is rejected with [remaining = 0], and at most
      [maxRequests] calls are granted;
    - whatever the [try] block does, also when it throws, the [finally]
      block releases: every gate and holder ends fulfilled, the lock map
      ends without an entry, and every call has settled, in firing order. *)
Theorem C5_same_key_calls_serialized {E : Type} key calls st :
  Forall (λ c, call_key c = key) calls →
  let results := (run_calls calls st).2 in
  (∃ m, Async.fire (E:=E) Async.critical_section (4 * length calls) calls st = Some m ∧
        Async.microtasks m = [] ∧
        Async.m_limiter m = (run_calls calls st).1 ∧
        Async.settled m = imap (λ i r, (i, Returned r)) results) ∧
  (∀ cfg t1 ts,
     calls = same_key_calls key cfg (t1 :: ts) →
     maxRequests cfg >= 1 →
     opens_window t1 key st →
     Forall (λ t, t <= t1 + windowMs cfg) ts →
     (∀ (i : nat) r, results !! i = Some r →
        (Z.of_nat i < maxRequests cfg →
           success r = true ∧ remaining r = maxRequests cfg - (Z.of_nat i + 1)) ∧
        (Z.of_nat i >= maxRequests cfg → success r = false ∧ remaining r = 0)) ∧
     Z.of_nat (length (filter (λ r, success r = true) results)) <= maxRequests cfg) ∧
  (∀ body : Z → string → RateLimitConfig → Limiter → Limiter * Completion E,
     ∃ m, Async.fire body (4 * length calls) calls st = Some m ∧
          Async.microtasks m = [] ∧
          Async.rateLimitLocks m = ∅ ∧
          (∀ i, (i < length calls)%nat →
             Async.heap m !! Queue.gate i = Some Async.Fulfilled ∧
             Async.heap m !! Queue.holder i = Some Async.Fulfilled) ∧
          Async.settled m
            = imap (λ i o, (i, o)) (Async.in_sequence body calls st).2 ∧
          length (Async.settled m) = length calls).
Proof.
  intros Hkey results.
  split; [| split].
  - destruct (QueueFacts.fire_same_key (E:=E) Async.critical_section key calls st Hkey)
      as (m & Hfire & Hq & _ & _ & Hlim & Hset).
    exists m. rewrite QueueFacts.in_sequence_critical_section in Hlim, Hset.
    simpl in Hlim, Hset. split; [done |]. split; [done |]. split; [done |].
    rewrite Hset. fold results. by rewrite imap_fmap.
  - intros cfg t1 ts Hcalls Hmax Hopen Hts.
    destruct (quota_within_window key cfg st t1 ts Hmax Hopen Hts) as [_ Hquota].
    rewrite <- Hcalls in Hquota. fold results in Hquota.
    split.
    + intros i r Hi. destruct (Hquota i r Hi) as (_ & Hok & Hrej). done.
    + assert (length (filter (λ r, success r = true) results)
              ≤ Z.to_nat (maxRequests cfg))%nat as Hbound; [| lia].
      apply filter_length_bound. intros i r Hi Hr.
      destruct (Hquota i r Hi) as (_ & _ & Hrej).
      destruct (decide (Z.of_nat i >= maxRequests cfg)) as [Hge | Hlt]; [| lia].
      destruct (Hrej Hge) as [Hfalse _]. congruence.
  - intros body.
    destruct (QueueFacts.fire_same_key body key calls st Hkey)
      as (m & Hfire & Hq & Hlocks & Hheap & _ & Hset).
    exists m. split; [done |]. split; [done |]. split; [done |]. split; [done |].
    split; [done |].
    rewrite Hset, length_imap. apply QueueFacts.in_sequence_length.
Qed.

Lemma C5_same_key_calls_witness :
  let cfg := mkConfig 2 3600000 in
  let calls := same_key_calls "10.0.0.1" cfg [1000; 1000; 1000] in
  ∃ m, Async.fire (E:=unit) Async.critical_section 12 calls initial = Some m ∧
       Async.microtasks m = [] ∧
       Async.m_limiter m = (run_calls calls initial).1 ∧
       Async.settled m = imap (λ i r, (i, Returned r)) (run_calls calls initial).2.
Proof.
  refine (proj1 (C5_same_key_calls_serialized (E:=unit) "10.0.0.1"
                   (same_key_calls "10.0.0.1" (mkConfig 2 3600000) [1000; 1000; 1000])
                   initial _)).
  repeat constructor.
Defined.

Example three_calls_in_flight :
  let cfg := mkConfig 2 1000 in
  let calls := same_key_calls "10.0.0.1" cfg [10; 11; 12] in
  Async.settled <$> Async.fire (E:=unit) Async.critical_section 12 calls initial
    = Some [(0%nat, Returned (mkResult true 1 1010));
            (1%nat, Returned (mkResult true 0 1010));
            (2%nat, Returned (mkResult false 0 1010))].
Proof. vm_compute. reflexivity. Qed.

(** A [try] block that throws on its second run: the third call still gets
    its turn and the lock map ends empty. *)
Example throwing_block_releases :
  let cfg := mkConfig 2 1000 in
  let calls := same_key_calls "10.0.0.1" cfg [10; 11; 12] in
  let faulty now k c st :=
    if decide (now = 11) then (st, Thrown "boom"%string)
    else Async.critical_section now k c st in
  (λ m, (Async.settled m, Async.rateLimitLocks m, Async.microtasks m))
    <$> Async.fire faulty 12 calls initial
  = Some ([(0%nat, Returned (mkResult true 1 1010));
           (1%nat, Thrown "boom"%string);
           (2%nat, Returned (mkResult true 0 1010))], ∅, []).
Proof. vm_compute. reflexivity. Qed.

(** * Further properties of the limiter *)

(** What a call leaves in the store, key by key: its own entry is the one
    the window step writes, every other entry is kept or swept. *)
Lemma checkRateLimit_local_lookup_other now k cfg st k' :
  k ≠ k' →
  rateLimitStore (checkRateLimit_local now k cfg st).1 !! k'
    = rateLimitStore (lazy_cleanup now st) !! k'.
Proof. intros Hne. unfold checkRateLimit_local. by rewrite window_step_frame. Qed.

Lemma lazy_cleanup_lookup_Some now st k e :
  rateLimitStore (lazy_cleanup now st) !! k = Some e →
  rateLimitStore st !! k = Some e ∧
  (cleanup_due now st → resetTime e >= now).
Proof.
  unfold lazy_cleanup. case_decide as Hdue; simpl.
  - intros H. apply sweep_lookup_Some in H as [H1 H2]. done.
  - intros H. split; [done | tauto].
Qed.

Lemma checkRateLimit_local_lastCleanup now k cfg st :
  lastCleanup (checkRateLimit_local now k cfg st).1 =
    if decide (cleanup_due now st) then now else lastCleanup st.
Proof.
  unfold checkRateLimit_local. rewrite window_step_lastCleanup.
  unfold lazy_cleanup. by case_decide.
Qed.

(** The entry a call leaves for its own identifier. *)
Lemma checkRateLimit_local_own_entry now k cfg st :
  ∃ e', rateLimitStore (checkRateLimit_local now k cfg st).1 !! k = Some e' ∧
        ((live_entry now k st = None ∧ e' = fresh_entry now cfg) ∨
         (∃ e, live_entry now k st = Some e ∧ resetTime e' = resetTime e ∧
               if decide (count e >= maxRequests cfg)
               then e' = e else count e' = count e + 1)).
Proof.
  destruct (checkRateLimit_local_by_view now k cfg st) as [_ Hs].
  eexists. split; [exact Hs |].
  destruct (live_entry now k st) as [e|]; [right | left; done].
  exists e. split; [done |]. case_decide; done.
Qed.

Lemma live_entry_Some now k st e :
  live_entry now k st = Some e ↔ rateLimitStore st !! k = Some e ∧ now <= resetTime e.
Proof.
  unfold live_entry, expired. destruct (rateLimitStore st !! k) as [e0|].
  - case_decide; split; try done.
    + intros [[= ->] ?]. lia.
    + intros [= ->]. split; [done | lia].
    + intros [[= ->] ?]. done.
  - split; [done | by intros [? _]].
Qed.

(** ** Counts and remaining quota stay in range *)

Lemma counts_within_step M now k cfg st :
  M >= 1 → maxRequests cfg = M → counts_within M st →
  counts_within M (checkRateLimit_local now k cfg st).1 ∧
  0 <= remaining (checkRateLimit_local now k cfg st).2 <= M - 1 ∧
  (success (checkRateLimit_local now k cfg st).2 = false →
   remaining (checkRateLimit_local now k cfg st).2 = 0).
Proof.
  intros HM Hcfg Hinv. split; [| split].
  - intros k' e' Hk'. destruct (decide (k = k')) as [<- | Hne].
    + destruct (checkRateLimit_local_own_entry now k cfg st) as (e1 & He1 & Hcase).
      rewrite He1 in Hk'. injection Hk' as ->.
      destruct Hcase as [[_ ->] | (e & Hlive & _ & Hcount)]; [simpl; lia |].
      apply live_entry_Some in Hlive as [Hstored _].
      pose proof (Hinv _ _ Hstored) as Hrange.
      case_decide; [by subst e' |]. lia.
    + rewrite checkRateLimit_local_lookup_other in Hk' by done.
      apply lazy_cleanup_lookup_Some in Hk' as [Hk' _]. by apply (Hinv k').
  - destruct (checkRateLimit_local_by_view now k cfg st) as [-> _].
    destruct (live_entry now k st) as [e|] eqn:Hlive; [| simpl; lia].
    apply live_entry_Some in Hlive as [Hstored _].
    pose proof (Hinv _ _ Hstored) as Hrange.
    case_decide; simpl; lia.
  - destruct (checkRateLimit_local_by_view now k cfg st) as [-> _].
    destruct (live_entry now k st) as [e|]; [| done].
    case_decide; simpl; done.
Qed.

(** X1: along any run of calls that all use the quota [M >= 1], from a
    store whose counts lie between 1 and [M] (the empty store for one),
    every stored count stays between 1 and [M], every call returns
    [0 <= remaining <= M - 1], and a rejected call returns [remaining = 0]. *)
Theorem X1_counts_and_remaining_in_range M calls st :
  M >= 1 →
  Forall (λ c : Call, maxRequests c.2 = M) calls →
  counts_within M st →
  counts_within M (run_calls calls st).1 ∧
  Forall (λ r, 0 <= remaining r <= M - 1 ∧ (success r = false → remaining r = 0))
         (run_calls calls st).2.
Proof.
  intros HM Hcalls. revert st.
  induction Hcalls as [|[[now k] cfg] rest Hcfg Hrest IH]; intros st Hinv; [done |].
  simpl in Hcfg.
  destruct (counts_within_step M now k cfg st HM Hcfg Hinv) as (Hinv1 & Hrange & Hrej).
  rewrite run_calls_cons. simpl.
  destruct (checkRateLimit_local now k cfg st) as [st1 r]. simpl in *.
  destruct (IH st1 Hinv1) as [Hinv2 Hall].
  destruct (run_calls rest st1) as [st2 rs]. simpl in *. split; [done |].
  constructor; done.
Qed.

Lemma X1_counts_and_remaining_witness :
  let cfg := mkConfig 2 1000 in
  let calls := [(10, "a"%string, cfg); (11, "b"%string, cfg); (12, "a"%string, cfg);
                (13, "a"%string, cfg); (2000, "a"%string, cfg)] in
  counts_within 2 (run_calls calls initial).1 ∧
  Forall (λ r, 0 <= remaining r <= 2 - 1 ∧ (success r = false → remaining r = 0))
         (run_calls calls initial).2.
Proof.
  apply (X1_counts_and_remaining_in_range 2).
  - lia.
  - repeat constructor.
  - intros k e Hk. simpl in Hk. rewrite lookup_empty in Hk. discriminate.
Defined.

(** ** The result reports the stored window *)

(** X2: after any call the store holds an entry for the identifier, the
    returned [reset] is that entry's [resetTime], a granted call returns
    [remaining = maxRequests - count] for the stored count, and with
    [windowMs >= 0] the returned [reset] is never before [now]. *)
Theorem X2_result_reports_stored_window now k cfg st :
  ∃ e', rateLimitStore (checkRateLimit_local now k cfg st).1 !! k = Some e' ∧
        reset (checkRateLimit_local now k cfg st).2 = resetTime e' ∧
        (success (checkRateLimit_local now k cfg st).2 = true →
         remaining (checkRateLimit_local now k cfg st).2 = maxRequests cfg - count e') ∧
        (windowMs cfg >= 0 → now <= reset (checkRateLimit_local now k cfg st).2).
Proof.
  destruct (checkRateLimit_local_by_view now k cfg st) as [Hr Hs].
  eexists. split; [exact Hs |]. rewrite Hr.
  destruct (live_entry now k st) as [e|] eqn:Hlive.
  - apply live_entry_Some in Hlive as [_ Hnow].
    case_decide; simpl; (split; [done |]); (split; [done || lia | lia]).
  - simpl. split; [done |]. split; [lia | lia].
Qed.

(** ** The clean-up does not show in the answers *)

Lemma live_entry_lazy_cleanup now k st :
  live_entry now k (lazy_cleanup now st) = live_entry now k st.
Proof.
  unfold live_entry.
  destruct (rateLimitStore st !! k) as [e|] eqn:Hk.
  - destruct (decide (expired now e)) as [He | He].
    + destruct (lazy_cleanup_lookup_expired now st k e Hk He) as [-> | ->];
        [by rewrite decide_True | done].
    + by rewrite (lazy_cleanup_lookup_live now st k e Hk He), decide_False.
  - by rewrite (lazy_cleanup_lookup_None now st k Hk).
Qed.

Lemma window_step_by_view now k cfg st :
  (window_step now k cfg st).2 =
    match live_entry now k st with
    | None => fresh_result now cfg
    | Some e =>
        if decide (count e >= maxRequests cfg)
        then mkResult false 0 (resetTime e)
        else mkResult true (maxRequests cfg - (count e + 1)) (resetTime e)
    end ∧
  rateLimitStore (window_step now k cfg st).1 !! k =
    Some match live_entry now k st with
         | None => fresh_entry now cfg
         | Some e =>
             if decide (count e >= maxRequests cfg)
             then e else mkEntry (count e + 1) (resetTime e)
         end.
Proof.
  unfold live_entry, window_step.
  destruct (rateLimitStore st !! k) as [e|] eqn:Hk; simpl.
  - destruct (decide (expired now e)); simpl.
    + by rewrite lookup_insert_eq.
    + case_decide; simpl; [done | by rewrite lookup_insert_eq].
  - by rewrite lookup_insert_eq.
Qed.

(** X3: a call answers exactly as it would without the clean-up of lines
    76-82, and leaves the same entry for its identifier: whether or not the
    sweep runs makes no difference to the caller. *)
Theorem X3_cleanup_is_transparent now k cfg st :
  (checkRateLimit_local now k cfg st).2 = (window_step now k cfg st).2 ∧
  rateLimitStore (checkRateLimit_local now k cfg st).1 !! k
    = rateLimitStore (window_step now k cfg st).1 !! k.
Proof.
  destruct (checkRateLimit_local_by_view now k cfg st) as [-> ->].
  destruct (window_step_by_view now k cfg st) as [-> ->]. done.
Qed.

(** X4: a call is rejected exactly when the store holds, for its
    identifier, an entry that has not expired ([now <= resetTime]) and
    whose count has reached [maxRequests]; in every other case it is
    granted. *)
Theorem X4_rejected_iff_live_and_exhausted now k cfg st :
  success (checkRateLimit_local now k cfg st).2 = false ↔
  ∃ e, rateLimitStore st !! k = Some e ∧ now <= resetTime e ∧
       count e >= maxRequests cfg.
Proof.
  destruct (checkRateLimit_local_by_view now k cfg st) as [-> _].
  destruct (live_entry now k st) as [e|] eqn:Hlive.
  - apply live_entry_Some in Hlive as [Hk Hnow]. case_decide as Hc; simpl.
    + split; [eauto | done].
    + split; [done |]. intros (e' & He' & _ & Hc'). rewrite Hk in He'.
      injection He' as <-. lia.
  - simpl. split; [done |]. intros (e & Hk & Hnow & _).
    assert (live_entry now k st = Some e) as Hl by (by apply live_entry_Some).
    congruence.
Qed.

(** ** How long ended windows stay in the store *)

Lemma run_calls_cons_state now k cfg rest st :
  (run_calls ((now, k, cfg) :: rest) st).1
  = (run_calls rest (checkRateLimit_local now k cfg st).1).1.
Proof.
  simpl. destruct (checkRateLimit_local now k cfg st) as [st1 r]. simpl.
  by destruct (run_calls rest st1).
Qed.

Lemma swept_step now k cfg st :
  windowMs cfg >= 0 → lastCleanup st <= now → swept st →
  swept (checkRateLimit_local now k cfg st).1 ∧
  lastCleanup (checkRateLimit_local now k cfg st).1 <= now ∧
  now - lastCleanup (checkRateLimit_local now k cfg st).1 <= CLEANUP_INTERVAL.
Proof.
  intros Hw Hlast Hswept.
  pose proof (checkRateLimit_local_lastCleanup now k cfg st) as Hlc.
  assert (lastCleanup (checkRateLimit_local now k cfg st).1 <= now ∧
          now - lastCleanup (checkRateLimit_local now k cfg st).1 <= CLEANUP_INTERVAL)
    as [Hle Hclose].
  { rewrite Hlc. case_decide as Hdue; [unfold CLEANUP_INTERVAL; lia |].
    unfold cleanup_due in Hdue. lia. }
  split; [| done].
  intros k' e' Hk'. destruct (decide (k = k')) as [<- | Hne].
  - destruct (checkRateLimit_local_own_entry now k cfg st) as (e1 & He1 & Hcase).
    rewrite He1 in Hk'. injection Hk' as ->.
    destruct Hcase as [[_ ->] | (e & Hlive & -> & _)].
    + simpl. lia.
    + apply live_entry_Some in Hlive as [_ Hnow]. lia.
  - rewrite checkRateLimit_local_lookup_other in Hk' by done.
    apply lazy_cleanup_lookup_Some in Hk' as [Hk' Hdue].
    rewrite Hlc. case_decide as Hd; [specialize (Hdue Hd); lia |].
    by apply (Hswept k').
Qed.

(** X5: along calls whose [Date.now()] does not go backwards (and
    [windowMs >= 0]), from a store as the clean-up leaves it (the empty
    store for one), the store stays as the clean-up leaves it, and after the
    last call, made at [tn], it holds no window that ended more than five
    minutes before [tn]: ended windows do not pile up while there is
    traffic. *)
Theorem X5_ended_windows_are_dropped calls : ∀ t0 st,
  Forall (λ c : Call, windowMs c.2 >= 0) calls →
  chronological t0 calls →
  lastCleanup st <= t0 →
  swept st →
  swept (run_calls calls st).1 ∧
  ∀ tn, last (call_time <$> calls) = Some tn →
        none_ended_before (tn - CLEANUP_INTERVAL) (run_calls calls st).1.
Proof.
  induction calls as [|[[now k] cfg] rest IH]; intros t0 st Hw Hchr Hlast Hswept.
  - simpl. split; [done | intros tn [=]].
  - apply Forall_cons in Hw as [Hw Hwrest]. simpl in Hw.
    destruct Hchr as [Ht0 Hchr]. unfold call_time in Ht0, Hchr. simpl in Ht0, Hchr.
    destruct (swept_step now k cfg st Hw) as (Hswept1 & Hle1 & Hclose1); [lia | done |].
    destruct (IH now (checkRateLimit_local now k cfg st).1 Hwrest Hchr Hle1 Hswept1)
      as [Hswept2 Hbound].
    rewrite run_calls_cons_state.
    split; [done |]. intros tn Htn.
    destruct rest as [|c rest'].
    + simpl in Htn. injection Htn as <-.
      intros k' e' Hk'. simpl in Hk'. specialize (Hswept1 k' e' Hk').
      unfold call_time. simpl. lia.
    + apply Hbound. exact Htn.
Qed.

Lemma X5_ended_windows_witness :
  let cfg := mkConfig 3 60000 in
  let calls := [(1000, "a"%string, cfg); (2000, "b"%string, cfg);
                (400000, "c"%string, cfg)] in
  none_ended_before (400000 - CLEANUP_INTERVAL) (run_calls calls initial).1.
Proof.
  intros cfg calls.
  refine (proj2 (X5_ended_windows_are_dropped calls 0 initial _ _ _ _) 400000 _).
  - repeat constructor; simpl; lia.
  - unfold calls, chronological, call_time. simpl. lia.
  - simpl. lia.
  - intros k e Hk. simpl in Hk. rewrite lookup_empty in Hk. discriminate.
  - reflexivity.
Defined.

(** ** Bursts across a window boundary *)

Lemma run_calls_app l1 l2 st :
  run_calls (l1 ++ l2) st =
    ((run_calls l2 (run_calls l1 st).1).1,
     (run_calls l1 st).2 ++ (run_calls l2 (run_calls l1 st).1).2).
Proof.
  revert st. induction l1 as [|[[now k] cfg] l1 IH]; intros st; simpl.
  - by destruct (run_calls l2 st).
  - destruct (checkRateLimit_local now k cfg st) as [st1 r]. rewrite IH.
    by destruct (run_calls l1 st1).
Qed.

Lemma grants_nonneg rs : 0 <= grants rs.
Proof. unfold grants. lia. Qed.

Lemma grants_cons r rs :
  grants (r :: rs) = (if success r then 1 else 0) + grants rs.
Proof.
  unfold grants. rewrite filter_cons. case_decide as H.
  - rewrite H. simpl length. lia.
  - destruct (success r); [done | lia].
Qed.

Lemma grants_app rs1 rs2 : grants (rs1 ++ rs2) = grants rs1 + grants rs2.
Proof. unfold grants. rewrite filter_app, length_app. lia. Qed.

Lemma grants_all rs :
  Forall (λ r, success r = true) rs → grants rs = Z.of_nat (length rs).
Proof.
  induction 1 as [|r rs Hr Hrs IH]; [done |].
  rewrite grants_cons, IH, Hr. simpl length. lia.
Qed.

(** One window grants at most the quota. *)
Lemma window_grants_le k cfg st t1 ts :
  maxRequests cfg >= 1 → opens_window t1 k st →
  Forall (λ t, t <= t1 + windowMs cfg) ts →
  grants (run_calls (same_key_calls k cfg (t1 :: ts)) st).2 <= maxRequests cfg.
Proof.
  intros Hmax Hopen Hts.
  destruct (quota_within_window k cfg st t1 ts Hmax Hopen Hts) as [_ Hquota].
  assert (length (filter (λ r, success r = true)
                    (run_calls (same_key_calls k cfg (t1 :: ts)) st).2)
          ≤ Z.to_nat (maxRequests cfg))%nat as Hbound; [| unfold grants; lia].
  apply filter_length_bound. intros i r Hi Hr.
  destruct (Hquota i r Hi) as (_ & _ & Hrej).
  destruct (decide (Z.of_nat i >= maxRequests cfg)) as [Hge | Hlt]; [| lia].
  destruct (Hrej Hge) as [Hfalse _]. congruence.
Qed.

(** The window that a run stays in is still the stored one at its end. *)
Lemma run_calls_live_window_entry k cfg ts : ∀ st c R,
  rateLimitStore st !! k = Some (mkEntry c R) →
  Forall (λ t, t <= R) ts →
  ∃ c', rateLimitStore (run_calls (same_key_calls k cfg ts) st).1 !! k
        = Some (mkEntry c' R).
Proof.
  induction ts as [|t ts IH]; intros st c R Hk Hts; [by exists c |].
  apply Forall_cons in Hts as [Ht Hts].
  unfold same_key_calls. simpl map. rewrite run_calls_cons_state.
  destruct (checkRateLimit_local_live t k cfg st (mkEntry c R) Hk) as [_ Hs].
  { unfold expired. simpl. lia. }
  simpl in Hs.
  destruct (decide (c >= maxRequests cfg)); by apply (IH _ _ R Hs).
Qed.

Lemma window_run_entry k cfg st t1 ts :
  opens_window t1 k st →
  Forall (λ t, t <= t1 + windowMs cfg) ts →
  ∃ c', rateLimitStore (run_calls (same_key_calls k cfg (t1 :: ts)) st).1 !! k
        = Some (mkEntry c' (t1 + windowMs cfg)).
Proof.
  intros Hopen Hts. unfold same_key_calls. simpl map. rewrite run_calls_cons_state.
  destruct (checkRateLimit_local_fresh t1 k cfg st) as [_ Hs].
  { unfold opens_window in Hopen.
    destruct (rateLimitStore st !! k) as [e|]; [right; eauto | by left]. }
  by apply (run_calls_live_window_entry k cfg ts _ 1 (t1 + windowMs cfg)).
Qed.

(** A run of at most [maxRequests] calls inside one window is granted
    throughout. *)
Lemma window_all_granted k cfg st t1 ts :
  maxRequests cfg >= 1 → opens_window t1 k st →
  Forall (λ t, t <= t1 + windowMs cfg) ts →
  Z.of_nat (S (length ts)) <= maxRequests cfg →
  Forall (λ r, success r = true) (run_calls (same_key_calls k cfg (t1 :: ts)) st).2.
Proof.
  intros Hmax Hopen Hts Hlen.
  destruct (quota_within_window k cfg st t1 ts Hmax Hopen Hts) as [Hl Hquota].
  apply Forall_lookup. intros i r Hi.
  pose proof (lookup_lt_Some _ _ _ Hi) as Hlt. rewrite Hl in Hlt.
  destruct (Hquota i r Hi) as (_ & Hok & _). apply Hok. lia.
Qed.

Lemma same_key_calls_app k cfg l1 l2 :
  same_key_calls k cfg (l1 ++ l2) = same_key_calls k cfg l1 ++ same_key_calls k cfg l2.
Proof. unfold same_key_calls. apply map_app. Qed.

(** X6: the fixed window lets a burst through at its boundary. For every
    quota [M >= 1] and [windowMs >= 0], [M] calls at time [t] that open a
    window followed by [M] calls at [t + windowMs + 1] are all granted: [2 M]
    grants within [windowMs + 1] milliseconds. *)
Theorem X6_boundary_burst_is_granted k cfg st t :
  maxRequests cfg >= 1 → windowMs cfg >= 0 → opens_window t k st →
  let n := Z.to_nat (maxRequests cfg) in
  let results :=
    (run_calls (same_key_calls k cfg
                  (replicate n t ++ replicate n (t + windowMs cfg + 1))) st).2 in
  Forall (λ r, success r = true) results ∧
  grants results = 2 * maxRequests cfg.
Proof.
  intros Hmax Hw Hopen n results.
  assert (∃ n', n = S n') as [n' Hn]
    by (exists (Z.to_nat (maxRequests cfg) - 1)%nat; unfold n; lia).
  assert (Forall (λ r, success r = true) results) as Hall.
  { unfold results. rewrite same_key_calls_app, run_calls_app.
    cbn [fst snd]. rewrite Hn.
    change (replicate (S n') ?x) with (x :: replicate n' x).
    apply Forall_app. split.
    - apply window_all_granted; [done | done | | rewrite length_replicate; lia].
      apply Forall_replicate. lia.
    - destruct (window_run_entry k cfg st t (replicate n' t) Hopen) as [c' Hentry].
      { apply Forall_replicate. lia. }
      apply window_all_granted; [done | | | rewrite length_replicate; lia].
      + unfold opens_window. rewrite Hentry. unfold expired. simpl. lia.
      + apply Forall_replicate. lia. }
  split; [done |].
  rewrite grants_all by done.
  unfold results. rewrite run_calls_length. unfold same_key_calls.
  rewrite length_map, length_app, !length_replicate. lia.
Qed.

Lemma X6_boundary_burst_witness :
  let cfg := mkConfig 3 3600000 in
  let results :=
    (run_calls (same_key_calls "10.0.0.1" cfg
                  (replicate 3 1000 ++ replicate 3 3601001)) initial).2 in
  Forall (λ r, success r = true) results ∧ grants results = 6.
Proof.
  apply (X6_boundary_burst_is_granted "10.0.0.1" (mkConfig 3 3600000) initial 1000).
  - simpl. lia.
  - simpl. lia.
  - exact I.
Defined.

(** From a stored window with count [c], a run of calls in a time span no
    longer than [windowMs] is granted at most what is left of that window
    plus one full quota. *)
Lemma span_grants_from_entry k cfg lo hi ts : ∀ st c R,
  maxRequests cfg >= 1 →
  rateLimitStore st !! k = Some (mkEntry c R) →
  hi <= lo + windowMs cfg →
  Forall (λ t, lo <= t <= hi) ts →
  grants (run_calls (same_key_calls k cfg ts) st).2
    <= Z.max 0 (maxRequests cfg - c) + maxRequests cfg.
Proof.
  induction ts as [|t ts IH]; intros st c R Hmax Hk Hspan Hts.
  - simpl. unfold grants. simpl. lia.
  - apply Forall_cons in Hts as [Ht Hts].
    destruct (decide (t <= R)) as [Hlive | Hexp].
    + unfold same_key_calls. simpl map. rewrite run_calls_cons, grants_cons.
      fold (same_key_calls k cfg ts).
      destruct (checkRateLimit_local_live t k cfg st (mkEntry c R) Hk) as [Hr Hs].
      { unfold expired. simpl. lia. }
      simpl in Hr, Hs. rewrite Hr.
      destruct (decide (c >= maxRequests cfg)) as [Hc | Hc]; simpl.
      * specialize (IH _ c R Hmax Hs Hspan Hts). lia.
      * specialize (IH _ (c + 1) R Hmax Hs Hspan Hts). lia.
    + assert (grants (run_calls (same_key_calls k cfg (t :: ts)) st).2
              <= maxRequests cfg); [| lia].
      apply window_grants_le; [done | |].
      * unfold opens_window. rewrite Hk. unfold expired. simpl. lia.
      * eapply Forall_impl; [exact Hts |]. simpl. intros t' Ht'. lia.
Qed.

(** X7: calls of one identifier with one configuration ([maxRequests = M
    >= 1], [windowMs >= 0]) whose times all lie in a span of [windowMs]
    milliseconds starting at the first call are granted at most [2 M - 1]
    times, whatever window the store held before (with a count of at least
    1, as every stored count is): the burst of X6 needs one millisecond
    more. *)
Theorem X7_grants_in_a_window_span k cfg st t1 ts :
  maxRequests cfg >= 1 → windowMs cfg >= 0 →
  (∀ e, rateLimitStore st !! k = Some e → 1 <= count e) →
  Forall (λ t, t1 <= t <= t1 + windowMs cfg) ts →
  grants (run_calls (same_key_calls k cfg (t1 :: ts)) st).2
    <= 2 * maxRequests cfg - 1.
Proof.
  intros Hmax Hw Hcount Hts.
  destruct (rateLimitStore st !! k) as [[c R]|] eqn:Hk.
  - specialize (Hcount _ eq_refl). simpl in Hcount.
    pose proof (span_grants_from_entry k cfg t1 (t1 + windowMs cfg) (t1 :: ts)
                  st c R Hmax Hk) as Hbound.
    assert (Forall (λ t, t1 <= t <= t1 + windowMs cfg) (t1 :: ts)) as Hall
      by (constructor; [lia | done]).
    specialize (Hbound ltac:(lia) Hall). lia.
  - assert (grants (run_calls (same_key_calls k cfg (t1 :: ts)) st).2
            <= maxRequests cfg); [| lia].
    apply window_grants_le; [done | unfold opens_window; by rewrite Hk |].
    eapply Forall_impl; [exact Hts |]. simpl. intros t' Ht'. lia.
Qed.

Lemma X7_grants_in_a_window_span_witness :
  let cfg := mkConfig 3 1000 in
  let st := mkLimiter {[ "a"%string := mkEntry 1 1500 ]} 0 in
  grants (run_calls (same_key_calls "a" cfg
                       [1400; 1450; 1500; 1501; 1600; 2000; 2400]) st).2 <= 2 * 3 - 1.
Proof.
  intros cfg st.
  apply (X7_grants_in_a_window_span "a" cfg st 1400 [1450; 1500; 1501; 1600; 2000; 2400]).
  - simpl. lia.
  - simpl. lia.
  - intros e He. unfold st in He. simpl in He.
    apply lookup_singleton_Some in He as [_ <-]. simpl. lia.
  - repeat constructor; simpl; lia.
Defined.

Example span_bound_is_reached :
  let cfg := mkConfig 3 1000 in
  let st := mkLimiter {[ "a"%string := mkEntry 1 1500 ]} 0 in
  grants (run_calls (same_key_calls "a" cfg
                       [1400; 1450; 1500; 1501; 1600; 2000; 2400]) st).2 = 5.
Proof. vm_compute. reflexivity. Qed.

(** * Further properties of [getClientIP] *)

Lemma has_comma_app l r : has_comma (l +:+ r) ↔ has_comma l ∨ has_comma r.
Proof.
  unfold has_comma. induction l as [|c l IH]; simpl_append; simpl.
  - tauto.
  - rewrite IH. tauto.
Qed.

Lemma blank_no_comma s : blank s → ¬ has_comma s.
Proof.
  unfold blank, has_comma. induction s as [|c s IH]; simpl; [tauto |].
  intros Hb. inversion Hb as [|? ? Hc Hs]; subst.
  intros [Heq | Hin]; [subst c; vm_compute in Hc; discriminate | by apply IH].
Qed.

Lemma trim_no_comma e : ¬ has_comma e → ¬ has_comma (trim e).
Proof.
  intros He Ht. apply He.
  destruct (trim_spec e) as (l & r & Heq & _). rewrite Heq.
  apply has_comma_app. right. apply has_comma_app. by left.
Qed.

(** The parts of line 155 are entries of the header, trimmed, and none of
    them is empty. *)
Lemma forwarded_parts_elem f p :
  p ∈ forwarded_parts f →
  ∃ e, e ∈ split_on "," f ∧ p = trim e ∧ p ≠ EmptyString.
Proof.
  unfold forwarded_parts. intros Hp.
  apply list_elem_of_filter in Hp as [Hne Hp].
  apply list_elem_of_fmap in Hp as (e & -> & He). eauto.
Qed.

Lemma forwarded_part_shape f p :
  p ∈ forwarded_parts f → p ≠ EmptyString ∧ trimmed p ∧ ¬ has_comma p.
Proof.
  intros Hp. apply forwarded_parts_elem in Hp as (e & He & -> & Hne).
  split; [done |]. split.
  - destruct (trim_spec e) as (_ & _ & _ & _ & _ & Ht). exact Ht.
  - apply trim_no_comma.
    pose proof (split_on_no_sep "," f) as Hall.
    rewrite Forall_forall in Hall. by apply Hall.
Qed.

(** X8: [getClientIP] never returns the empty string: the limiter is never
    keyed by an empty identifier, whatever headers the request carries. *)
Theorem X8_client_ip_never_empty request : getClientIP request ≠ EmptyString.
Proof.
  unfold getClientIP.
  assert (∀ v s, if_truthy v = Some s → s ≠ EmptyString) as Htruthy.
  { intros [s0|] s; simpl; [| done]. case_decide; [done |]. by intros [= <-]. }
  destruct (if_truthy (headers_get request "cf-connecting-ip")) as [cf|] eqn:Hcf;
    [by apply (Htruthy _ _ Hcf) |].
  destruct (if_truthy (headers_get request "x-real-ip")) as [real|] eqn:Hreal;
    [by apply (Htruthy _ _ Hreal) |].
  destruct (if_truthy (headers_get request "x-forwarded-for")) as [f|]; [| done].
  destruct (forwarded_parts f) as [|p rest] eqn:Hparts; [done |].
  apply (forwarded_part_shape f p). rewrite Hparts. by left.
Qed.

(** X9: when [cf-connecting-ip] and [x-real-ip] are absent or empty, the
    returned identifier has no comma in it and neither starts nor ends with
    whitespace, whatever [x-forwarded-for] holds: a forwarded-for list is
    never used as a key as a whole, nor with padding. *)
Theorem X9_forwarded_identifier_is_one_clean_entry request :
  unusable (headers_get request "cf-connecting-ip") →
  unusable (headers_get request "x-real-ip") →
  ¬ has_comma (getClientIP request) ∧ trimmed (getClientIP request).
Proof.
  intros Hcf Hreal. unfold getClientIP.
  rewrite (if_truthy_unusable _ Hcf), (if_truthy_unusable _ Hreal).
  assert (¬ has_comma FALLBACK_IP ∧ trimmed FALLBACK_IP) as Hfallback.
  { split.
    - unfold has_comma. vm_compute. intuition discriminate.
    - split; intros c; vm_compute; intros [= <-]; reflexivity. }
  destruct (if_truthy (headers_get request "x-forwarded-for")) as [f|]; [| done].
  destruct (forwarded_parts f) as [|p rest] eqn:Hparts; [done |].
  destruct (forwarded_part_shape f p) as (_ & Ht & Hc); [rewrite Hparts; by left |].
  done.
Qed.

Lemma X9_forwarded_identifier_witness :
  let r := mkRequest {[ "x-forwarded-for"%string := " 198.51.100.4 ,10.0.0.1"%string ]} in
  ¬ has_comma (getClientIP r) ∧ trimmed (getClientIP r).
Proof.
  intros r. apply X9_forwarded_identifier_is_one_clean_entry.
  - left. reflexivity.
  - left. reflexivity.
Defined.

(** X10: the left-most address of a forwarded-for list is the identifier.
    When [cf-connecting-ip] and [x-real-ip] are absent or empty and
    [x-forwarded-for] is [client], or [client] followed by a comma and
    anything, where [client] is not empty, has no comma and no whitespace
    at its ends, possibly padded with whitespace, then [getClientIP] returns
    [client]. *)
Theorem X10_leftmost_forwarded_address request client padl padr f :
  unusable (headers_get request "cf-connecting-ip") →
  unusable (headers_get request "x-real-ip") →
  client ≠ EmptyString → ¬ has_comma client → trimmed client →
  blank padl → blank padr →
  headers_get request "x-forwarded-for" = Some f →
  (f = padl +:+ client +:+ padr ∨
   ∃ rest, f = (padl +:+ client +:+ padr) +:+ "," +:+ rest) →
  getClientIP request = client.
Proof.
  intros Hcf Hreal Hne Hcomma Htrimmed Hl Hr Hf Hshape.
  destruct (getClientIP_precedence request) as [_ Hrest].
  destruct (Hrest Hcf) as [_ Hxff]. destruct (Hxff Hreal) as [Hfirst _].
  apply (Hfirst f); [done |].
  set (e := padl +:+ client +:+ padr).
  assert (¬ has_comma e) as He_comma.
  { unfold e. rewrite !has_comma_app. pose proof (blank_no_comma _ Hl).
    pose proof (blank_no_comma _ Hr). tauto. }
  assert (¬ blank e) as He_blank.
  { unfold e. rewrite !blank_app. intros (_ & Hc & _).
    destruct client as [|c client]; [done |].
    apply blank_cons in Hc as [Hc _].
    destruct Htrimmed as [Hfirst_c _]. rewrite (Hfirst_c c eq_refl) in Hc. done. }
  assert (trim_of e client) as He_trim by (exists padl, padr; done).
  destruct Hshape as [-> | [rest ->]].
  - exists [], e, []. split; [| done].
    split; [done |]. split; [done | by constructor].
  - exists [], e, (split_on "," rest). split; [| done].
    split; [done |]. split.
    + pose proof (split_on_not_nil "," rest) as Hnil.
      pose proof (concat_split_on "," rest) as Hjoin.
      destruct (split_on "," rest) as [|h t] eqn:Hs; [done |].
      change (String.concat "," ([] ++ e :: h :: t))
        with (e +:+ "," +:+ String.concat "," (h :: t)).
      by rewrite Hjoin.
    + constructor; [done | apply split_on_no_sep].
Qed.

Lemma X10_leftmost_forwarded_witness :
  let r := mkRequest
    {[ "x-forwarded-for"%string := "198.51.100.4 , 10.0.0.1, 10.0.0.2"%string ]} in
  getClientIP r = "198.51.100.4"%string.
Proof.
  intros r.
  apply (X10_leftmost_forwarded_address r "198.51.100.4" "" " "
           "198.51.100.4 , 10.0.0.1, 10.0.0.2").
  - left. reflexivity.
  - left. reflexivity.
  - discriminate.
  - unfold has_comma. vm_compute. intuition discriminate.
  - split; intros c; vm_compute; intros [= <-]; reflexivity.
  - constructor.
  - repeat constructor.
  - reflexivity.
  - right. exists " 10.0.0.1, 10.0.0.2"%string. reflexivity.
Defined.

(** * The newsletter route *)

(** ** The CSRF check *)

(** X11: [checkCSRF] lets a request through exactly when the protection is
    not switched on ([CSRF_PROTECTION] is not the string "true"), or the
    request carries a non-empty [x-csrf-token] equal to
    [CSRF_PROTECTION_TOKEN]; whatever it blocks gets status 403 without
    rate-limit headers. *)
Theorem X11_csrf_passes_iff {Rows : Type} env request :
  (checkCSRF (Rows:=Rows) env request = None ↔
   CSRF_PROTECTION env ≠ Some "true"%string ∨
   ∃ t, t ≠ EmptyString ∧
        headers_get (http_request request) "x-csrf-token" = Some t ∧
        CSRF_PROTECTION_TOKEN env = Some t) ∧
  (∀ response, checkCSRF (Rows:=Rows) env request = Some response →
     status response = 403 ∧ response_headers response = ∅).
Proof.
  unfold checkCSRF. split.
  - case_decide as Hon; [| split; [by left | done]].
    destruct (headers_get (http_request request) "x-csrf-token") as [t|] eqn:Ht; simpl.
    + destruct (decide (t = EmptyString)) as [-> | Hne]; simpl.
      * split; [done |]. intros [? | (t & Hne & [= <-] & _)]; done.
      * case_decide as Heq.
        -- split; [| done]. intros _. right. by exists t.
        -- split; [done |]. intros [? | (t' & _ & [= <-] & Htok)]; done.
    + split; [done |]. intros [? | (t & _ & ? & _)]; done.
  - intros response. case_decide; [| done].
    destruct (if_truthy _); [case_decide; [done |] |]; by intros [= <-].
Qed.

Lemma checkCSRF_blocked_shape {Rows : Type} env request :
  ∀ response, checkCSRF (Rows:=Rows) env request = Some response →
    status response = 403 ∧ response_headers response = ∅.
Proof.
  intros response. unfold checkCSRF. case_decide; [| done].
  destruct (if_truthy _); [case_decide; [done |] |]; by intros [= <-].
Qed.

(** X12: with the protection switched on and [CSRF_PROTECTION_TOKEN] unset
    or empty, [checkCSRF] blocks every request, whatever token it carries:
    the misconfiguration fails closed. *)
Theorem X12_csrf_without_token_blocks_all {Rows : Type} env request :
  CSRF_PROTECTION env = Some "true"%string →
  CSRF_PROTECTION_TOKEN env = None ∨ CSRF_PROTECTION_TOKEN env = Some EmptyString →
  checkCSRF (Rows:=Rows) env request
    = Some (mkResponse 403 (ErrorPayload "CSRF token missing or invalid") ∅).
Proof.
  intros Hon Htok. unfold checkCSRF. rewrite decide_True by done.
  destruct (if_truthy _) as [t|] eqn:Ht; [| done].
  rewrite decide_False; [done |].
  destruct (headers_get (http_request request) "x-csrf-token") as [t0|]; [| done].
  simpl in Ht. case_decide as Ht0; [done |]. injection Ht as <-.
  destruct Htok as [-> | ->]; [done |]. by intros [= <-].
Qed.

Lemma X12_csrf_without_token_witness :
  let env := mkRouteEnv (Some "true"%string) None (mkEnv None None) in
  let request := mkHttpRequest
    (mkRequest {[ "x-csrf-token"%string := "undefined"%string ]}) None in
  checkCSRF (Rows:=unit) env request
    = Some (mkResponse 403 (ErrorPayload "CSRF token missing or invalid") ∅).
Proof.
  intros env request. apply X12_csrf_without_token_blocks_all.
  - reflexivity.
  - left. reflexivity.
Defined.

(** ** The handlers *)

Section RouteFacts.
Context {JsError DB Subscriber Rows : Type}.
Variable toUpperCase : string → string.
Variable toLowerCase : string → string.
Variable upstashLimit : string → RateLimitConfig → JsError + RateLimitResult.
Variable subscriber_status : Subscriber → string.
Variable findUnique : string → DB → DB * (JsError + option Subscriber).
Variable update : string → UpdateData → DB → DB * (JsError + unit).
Variable count_status : string → DB → DB * (JsError + Z).
Variable findMany_recent : DB → DB * (JsError + Rows).
Variable subscribe :
  HttpRequest → RateLimitResult → DB → DB * (JsError + Response (Rows:=Rows)).

Lemma rate_limited_rejected env now request (w : World (JsError:=JsError) (DB:=DB))
    rest r :
  (consult_limiter toUpperCase upstashLimit env now request w).2 = Returned r → success r = false →
  rate_limited (Rows:=Rows) toUpperCase upstashLimit env now request w rest
    = (mkWorld (consult_limiter toUpperCase upstashLimit env now request w).1
               (database w),
       inr (mkResponse 429
              (ErrorPayload "Rate limit exceeded. Please try again later.")
              (getRateLimitHeaders (remaining r) (reset r)))).
Proof.
  intros Ho Hs. unfold rate_limited. unfold consult_limiter in *.
  destruct (checkRateLimit _ _ _ _ _ _ _) as [p o]. simpl in *. subst o.
  by rewrite Hs.
Qed.

Lemma rate_limited_thrown env now request (w : World (JsError:=JsError) (DB:=DB))
    rest err :
  (consult_limiter toUpperCase upstashLimit env now request w).2 = Thrown err →
  rate_limited (Rows:=Rows) toUpperCase upstashLimit env now request w rest
    = (mkWorld (consult_limiter toUpperCase upstashLimit env now request w).1 (database w), inl err).
Proof.
  intros Ho. unfold rate_limited. unfold consult_limiter in *.
  destruct (checkRateLimit _ _ _ _ _ _ _) as [p o]. simpl in *. by subst o.
Qed.

Lemma rate_limited_granted env now request (w : World (JsError:=JsError) (DB:=DB))
    rest r :
  (consult_limiter toUpperCase upstashLimit env now request w).2 = Returned r → success r = true →
  rate_limited (Rows:=Rows) toUpperCase upstashLimit env now request w rest
    = rest r (mkWorld (consult_limiter toUpperCase upstashLimit env now request w).1 (database w)).
Proof.
  intros Ho Hs. unfold rate_limited. unfold consult_limiter in *.
  destruct (checkRateLimit _ _ _ _ _ _ _) as [p o]. simpl in *. subst o.
  by rewrite Hs.
Qed.

(** X13: a request that [checkCSRF] blocks is answered by [POST] and
    [DELETE] with the 403 of [checkCSRF] before the limiter is consulted:
    no quota is used, nothing is logged, the database is not touched. *)
Theorem X13_csrf_block_uses_no_quota env now today request
    (w : World (JsError:=JsError) (DB:=DB)) response :
  checkCSRF env request = Some response →
  POST toUpperCase upstashLimit subscribe env now request w = (w, response) ∧
  DELETE (Rows:=Rows) toUpperCase toLowerCase upstashLimit subscriber_status
    findUnique update env now today request w = (w, response).
Proof.
  intros Hcsrf. unfold POST, DELETE. rewrite Hcsrf. simpl. done.
Qed.

(** What the handlers answer to a client over its limit. *)
Lemma handlers_over_limit env now today request
    (w : World (JsError:=JsError) (DB:=DB)) r :
  (consult_limiter toUpperCase upstashLimit env now request w).2 = Returned r →
  success r = false →
  let w' := mkWorld (consult_limiter toUpperCase upstashLimit env now request w).1 (database w) in
  let response :=
    mkResponse 429 (ErrorPayload "Rate limit exceeded. Please try again later.")
      {[ "X-RateLimit-Limit"%string := "3"%string;
         "X-RateLimit-Remaining"%string := number_toString (remaining r);
         "X-RateLimit-Reset"%string := number_toString (reset r) ]} in
  GET toUpperCase upstashLimit count_status findMany_recent env now request w = (w', response) ∧
  (checkCSRF (Rows:=Rows) env request = None →
   POST toUpperCase upstashLimit subscribe env now request w = (w', response) ∧
   DELETE (Rows:=Rows) toUpperCase toLowerCase upstashLimit subscriber_status
    findUnique update env now today request w = (w', response)).
Proof.
  intros Ho Hs w' response. split.
  - unfold GET. by rewrite (rate_limited_rejected _ _ _ _ _ r).
  - intros Hcsrf. unfold POST, DELETE. rewrite Hcsrf.
    by rewrite !(rate_limited_rejected _ _ _ _ _ r).
Qed.

(** X14: when the limiter rejects the client, each of the three handlers
    ([POST] and [DELETE] after a passed CSRF check) answers with status 429
    and the headers [X-RateLimit-Limit = "3"], [X-RateLimit-Remaining] and
    [X-RateLimit-Reset] of the limiter's result, and does not touch the
    database. *)
Theorem X14_over_limit_is_429 env now today request
    (w : World (JsError:=JsError) (DB:=DB)) r :
  (consult_limiter toUpperCase upstashLimit env now request w).2 = Returned r →
  success r = false →
  let w' := mkWorld (consult_limiter toUpperCase upstashLimit env now request w).1 (database w) in
  let response :=
    mkResponse 429 (ErrorPayload "Rate limit exceeded. Please try again later.")
      {[ "X-RateLimit-Limit"%string := "3"%string;
         "X-RateLimit-Remaining"%string := number_toString (remaining r);
         "X-RateLimit-Reset"%string := number_toString (reset r) ]} in
  GET toUpperCase upstashLimit count_status findMany_recent env now request w = (w', response) ∧
  (checkCSRF (Rows:=Rows) env request = None →
   POST toUpperCase upstashLimit subscribe env now request w = (w', response) ∧
   DELETE (Rows:=Rows) toUpperCase toLowerCase upstashLimit subscriber_status
    findUnique update env now today request w = (w', response)).
Proof. apply handlers_over_limit. Qed.

(** X15: when the limiter itself fails (the external backend in
    production), each handler logs the error and answers with status 500
    without rate-limit headers; the request is not let through and the
    database is not touched. *)
Theorem X15_limiter_failure_is_500 env now today request
    (w : World (JsError:=JsError) (DB:=DB)) err :
  (consult_limiter toUpperCase upstashLimit env now request w).2 = Thrown err →
  let after log :=
    mkWorld (mkProcess (limiter (consult_limiter toUpperCase upstashLimit env now request w).1)
                       (console (consult_limiter toUpperCase upstashLimit env now request w).1 ++ [console_error log err]))
            (database w) in
  GET toUpperCase upstashLimit count_status findMany_recent env now request w
    = (after "Newsletter stats error:"%string,
       mkResponse 500 (ErrorPayload "Failed to fetch stats") ∅) ∧
  (checkCSRF (Rows:=Rows) env request = None →
   POST toUpperCase upstashLimit subscribe env now request w
     = (after "Newsletter subscription error:"%string,
        mkResponse 500 (ErrorPayload "Failed to subscribe. Please try again.") ∅) ∧
   DELETE (Rows:=Rows) toUpperCase toLowerCase upstashLimit subscriber_status
    findUnique update env now today request w
     = (after "Newsletter unsubscribe error:"%string,
        mkResponse 500 (ErrorPayload "Failed to unsubscribe. Please try again.") ∅)).
Proof.
  intros Ho after. split.
  - unfold GET. by rewrite (rate_limited_thrown _ _ _ _ _ err).
  - intros Hcsrf. unfold POST, DELETE. rewrite Hcsrf.
    by rewrite !(rate_limited_thrown _ _ _ _ _ err).
Qed.

(** In local mode the limiter call is the local algorithm on the client's
    address, and leaves the console alone. *)
Lemma consult_limiter_local env now request (w : World (JsError:=JsError) (DB:=DB)) :
  mode toUpperCase (limiter_env env) ≠ "UPSTASH"%string →
  consult_limiter toUpperCase upstashLimit env now request w =
    (mkProcess (checkRateLimit_local now (getClientIP (http_request request))
                  RATE_LIMIT_CONFIG (limiter (process w))).1
               (console (process w)),
     Returned (checkRateLimit_local now (getClientIP (http_request request))
                 RATE_LIMIT_CONFIG (limiter (process w))).2).
Proof.
  intros Hmode. unfold consult_limiter, checkRateLimit.
  rewrite decide_False by done. apply local_path_spec.
Qed.

Lemma catch_error_limiter log message
    (r : World (JsError:=JsError) (DB:=DB) * (JsError + Response (Rows:=Rows))) :
  limiter (process (catch_error log message r).1) = limiter (process r.1).
Proof. by destruct r as [w [err | response]]. Qed.

Lemma db_call_limiter {A : Type} (op : DB → DB * (JsError + A))
    (w : World (JsError:=JsError) (DB:=DB))
    (k : A → World → World * (JsError + Response (Rows:=Rows))) :
  (∀ a w', limiter (process (k a w').1) = limiter (process w')) →
  limiter (process (db_call op w k).1) = limiter (process w).
Proof.
  intros Hk. unfold db_call. destruct (op (database w)) as [db [err | a]]; [done |].
  by rewrite Hk.
Qed.

Lemma rate_limited_limiter env now request (w : World (JsError:=JsError) (DB:=DB))
    (rest : RateLimitResult → World → World * (JsError + Response (Rows:=Rows))) :
  (∀ r w', limiter (process (rest r w').1) = limiter (process w')) →
  limiter (process (rate_limited toUpperCase upstashLimit env now request w rest).1)
    = limiter (consult_limiter toUpperCase upstashLimit env now request w).1.
Proof.
  intros Hrest. unfold rate_limited, consult_limiter.
  destruct (checkRateLimit _ _ _ _ _ _ _) as [p [r | err]]; simpl; [| done].
  destruct (success r); [| done]. by rewrite Hrest.
Qed.

(** Whatever a handler does after the limiter call, the limiter state is
    the one that call left. *)
Lemma handlers_limiter env now today request (w : World (JsError:=JsError) (DB:=DB)) :
  limiter (process (GET toUpperCase upstashLimit count_status findMany_recent
                        env now request w).1)
    = limiter (consult_limiter toUpperCase upstashLimit env now request w).1 ∧
  (checkCSRF (Rows:=Rows) env request = None →
   limiter (process (POST toUpperCase upstashLimit subscribe env now request w).1)
     = limiter (consult_limiter toUpperCase upstashLimit env now request w).1 ∧
   limiter (process (DELETE (Rows:=Rows) toUpperCase toLowerCase upstashLimit
                       subscriber_status findUnique update env now today request w).1)
     = limiter (consult_limiter toUpperCase upstashLimit env now request w).1).
Proof.
  split; [| intros Hcsrf; split].
  - unfold GET. rewrite catch_error_limiter. apply rate_limited_limiter.
    intros r w'. apply db_call_limiter. intros total w1.
    apply db_call_limiter. intros unsub w2. apply db_call_limiter. done.
  - unfold POST. rewrite Hcsrf, catch_error_limiter. apply rate_limited_limiter.
    intros r w'. by destruct (subscribe request r (database w')).
  - unfold DELETE. rewrite Hcsrf, catch_error_limiter. apply rate_limited_limiter.
    intros r w'. destruct (if_truthy (query_email request)); [| done].
    apply db_call_limiter. intros [sub|] w1; [| done].
    case_decide; [done |]. apply db_call_limiter. done.
Qed.

(** X16: in local mode every request that gets past the CSRF check uses
    one unit of its client's quota, whatever becomes of it afterwards (a
    validation error, an unknown address, a database failure, a success):
    after [GET], and after [POST] and [DELETE] with a passed CSRF check, the
    limiter is in the state that the call for [getClientIP request] with the
    route's configuration leaves. *)
Theorem X16_every_request_is_counted env now today request
    (w : World (JsError:=JsError) (DB:=DB)) :
  mode toUpperCase (limiter_env env) ≠ "UPSTASH"%string →
  let counted :=
    (checkRateLimit_local now (getClientIP (http_request request))
       RATE_LIMIT_CONFIG (limiter (process w))).1 in
  limiter (process (GET toUpperCase upstashLimit count_status findMany_recent
                        env now request w).1) = counted ∧
  (checkCSRF (Rows:=Rows) env request = None →
   limiter (process (POST toUpperCase upstashLimit subscribe env now request w).1)
     = counted ∧
   limiter (process (DELETE (Rows:=Rows) toUpperCase toLowerCase upstashLimit
                       subscriber_status findUnique update env now today request w).1)
     = counted).
Proof.
  intros Hmode counted.
  destruct (handlers_limiter env now today request w) as [Hget Hrest].
  rewrite consult_limiter_local in Hget, Hrest by done. simpl in Hget, Hrest.
  done.
Qed.

(** X17: the answers of [DELETE] and [GET].  [DELETE] answers with one of
    the statuses 403, 429, 400, 404, 200 and 500, [GET] with 429, 200 or 500;
    an answer with status 403 or 500 carries no rate-limit headers, every
    other answer carries the three headers of the limiter's result; and
    [DELETE] leaves the database alone when it answers 403, 429 or 400. *)
Theorem X17_answers_of_delete_and_get env now today request
    (w : World (JsError:=JsError) (DB:=DB)) :
  let limited := consult_limiter toUpperCase upstashLimit env now request w in
  let explained (out : World (JsError:=JsError) (DB:=DB) * Response (Rows:=Rows)) :=
    (status out.2 = 403 ∨ status out.2 = 500) ∧ response_headers out.2 = ∅ ∨
    (status out.2 = 429 ∨ status out.2 = 400 ∨ status out.2 = 404 ∨ status out.2 = 200) ∧
    ∃ r, limited.2 = Returned r ∧
         response_headers out.2 = getRateLimitHeaders (remaining r) (reset r) in
  let deleted := DELETE (Rows:=Rows) toUpperCase toLowerCase upstashLimit
                   subscriber_status findUnique update env now today request w in
  let got := GET toUpperCase upstashLimit count_status findMany_recent
               env now request w in
  explained deleted ∧
  (status deleted.2 = 403 ∨ status deleted.2 = 429 ∨ status deleted.2 = 400 →
   database deleted.1 = database w) ∧
  explained got ∧ status got.2 ≠ 403 ∧ status got.2 ≠ 400 ∧ status got.2 ≠ 404.
Proof.
  intros limited explained deleted got.
  unfold explained, deleted, got, limited, DELETE, GET, rate_limited, consult_limiter, db_call.
  destruct (checkRateLimit _ _ _ _ _ _ _) as [p [r | err]]; simpl.
  2:{ destruct (checkCSRF env request) as [resp|] eqn:Hcsrf; simpl.
      - pose proof (checkCSRF_blocked_shape env request resp Hcsrf) as [H1 H2].
        rewrite H1, H2. intuition (done || lia).
      - intuition (done || lia). }
  destruct (checkCSRF env request) as [resp|] eqn:Hcsrf; simpl.
  { pose proof (checkCSRF_blocked_shape env request resp Hcsrf) as [H1 H2].
    rewrite H1, H2.
    destruct (success r); simpl;
      repeat (match goal with
              | |- context [match ?op (database ?w) with _ => _ end] =>
                  destruct (op (database w)) as [? [?|?]]; simpl
              | |- context [match ?op ?d with _ => _ end] =>
                  destruct (op d) as [? [?|?]]; simpl
              end);
      intuition (done || lia || eauto). }
  destruct (success r); simpl.
  2:{ intuition (done || lia || eauto 10). }
  split; [| split].
  - destruct (if_truthy (query_email request)) as [email|]; simpl; [| eauto 10].
    destruct (findUnique (toLowerCase email) (database w)) as [db [err | [sub|]]];
      simpl; [eauto 10 | | eauto 10].
    case_decide; simpl; [eauto 10 |].
    destruct (update _ _ db) as [db' [err | []]]; simpl; eauto 10.
  - destruct (if_truthy (query_email request)) as [email|]; simpl; [| done].
    destruct (findUnique (toLowerCase email) (database w)) as [db [err | [sub|]]];
      simpl; [intuition lia | | intuition lia].
    case_decide; simpl; [intuition lia |].
    destruct (update _ _ db) as [db' [err | []]]; simpl; intuition lia.
  - destruct (count_status "active" (database w)) as [db1 [err | n1]]; simpl;
      [intuition (done || lia) |].
    destruct (count_status "unsubscribed" db1) as [db2 [err | n2]]; simpl;
      [intuition (done || lia) |].
    destruct (findMany_recent db2) as [db3 [err | rows]]; simpl;
      intuition (done || lia || eauto 10).
Qed.

Lemma serve_cons env a rest (w : World (JsError:=JsError) (DB:=DB)) :
  serve toUpperCase toLowerCase upstashLimit subscriber_status findUnique update
        count_status findMany_recent subscribe env (a :: rest) w
  = let h := handle toUpperCase toLowerCase upstashLimit subscriber_status findUnique
                    update count_status findMany_recent subscribe env a w in
    let s := serve toUpperCase toLowerCase upstashLimit subscriber_status findUnique
                   update count_status findMany_recent subscribe env rest h.1 in
    (s.1, h.2 :: s.2).
Proof.
  simpl. destruct (handle _ _ _ _ _ _ _ _ _ env a w) as [w1 response]. simpl.
  by destruct (serve _ _ _ _ _ _ _ _ _ env rest w1).
Qed.

Lemma serve_length env arrivals : ∀ (w : World (JsError:=JsError) (DB:=DB)),
  length (serve toUpperCase toLowerCase upstashLimit subscriber_status findUnique
                update count_status findMany_recent subscribe env arrivals w).2
  = length arrivals.
Proof.
  induction arrivals as [|a rest IH]; intros w; [done |].
  rewrite serve_cons. simpl. by rewrite IH.
Qed.

(** One arrival in local mode: the limiter takes the step of the call for
    the client's address, and a rejected client gets the 429. *)
Lemma handle_local env a (w : World (JsError:=JsError) (DB:=DB)) :
  mode toUpperCase (limiter_env env) ≠ "UPSTASH"%string →
  passes_csrf (Rows:=Rows) env a →
  let step := checkRateLimit_local (arrival_now a)
                (getClientIP (http_request (arrival_request a)))
                RATE_LIMIT_CONFIG (limiter (process w)) in
  let out := handle toUpperCase toLowerCase upstashLimit subscriber_status findUnique
                    update count_status findMany_recent subscribe env a w in
  limiter (process out.1) = step.1 ∧
  (success step.2 = false →
   out.2 = mkResponse 429 (ErrorPayload "Rate limit exceeded. Please try again later.")
             (getRateLimitHeaders (remaining step.2) (reset step.2))).
Proof.
  intros Hmode Hpass step out.
  pose proof (consult_limiter_local env (arrival_now a) (arrival_request a) w Hmode)
    as Hlocal.
  destruct (handlers_limiter env (arrival_now a) (arrival_today a)
              (arrival_request a) w) as [Hget Hrest].
  rewrite Hlocal in Hget, Hrest. simpl in Hget, Hrest.
  assert (success step.2 = false →
          (consult_limiter toUpperCase upstashLimit env (arrival_now a)
             (arrival_request a) w).2 = Returned step.2) as Hret
    by (intros _; by rewrite Hlocal).
  unfold out, handle. destruct Hpass as [Hm | Hcsrf].
  - rewrite Hm. split; [done |]. intros Hrej.
    destruct (handlers_over_limit env (arrival_now a) (arrival_today a)
                (arrival_request a) w step.2 (Hret Hrej) Hrej) as [-> _]. done.
  - destruct (Hrest Hcsrf) as [Hpost Hdelete].
    destruct (arrival_method a); (split; [done |]); intros Hrej;
      destruct (handlers_over_limit env (arrival_now a) (arrival_today a)
                  (arrival_request a) w step.2 (Hret Hrej) Hrej) as [Hg Hpd];
      destruct (Hpd Hcsrf) as [Hp Hd]; by rewrite ?Hp, ?Hd, ?Hg.
Qed.

(** A sequence of arrivals from one client address in local mode, next to
    the run of the limiter calls it makes. *)
Lemma serve_local env ip arrivals : ∀ (w : World (JsError:=JsError) (DB:=DB)),
  mode toUpperCase (limiter_env env) ≠ "UPSTASH"%string →
  Forall (passes_csrf (Rows:=Rows) env) arrivals →
  Forall (λ a, getClientIP (http_request (arrival_request a)) = ip) arrivals →
  let calls := (λ a, (arrival_now a, ip, RATE_LIMIT_CONFIG)) <$> arrivals in
  ∀ (i : nat) response r,
    (serve toUpperCase toLowerCase upstashLimit subscriber_status findUnique update
           count_status findMany_recent subscribe env arrivals w).2 !! i = Some response →
    (run_calls calls (limiter (process w))).2 !! i = Some r →
    success r = false →
    response = mkResponse 429 (ErrorPayload "Rate limit exceeded. Please try again later.")
                 (getRateLimitHeaders (remaining r) (reset r)).
Proof.
  induction arrivals as [|a rest IH]; intros w Hmode Hpass Hip calls i response r;
    [done |].
  apply Forall_cons in Hpass as [Hpa Hpass]. apply Forall_cons in Hip as [Hipa Hip].
  destruct (handle_local env a w Hmode Hpa) as [Hlim Hrej]. rewrite Hipa in Hlim, Hrej.
  unfold calls. rewrite fmap_cons, serve_cons, run_calls_cons. cbn [fst snd].
  destruct i as [|i]; simpl.
  - intros [= <-] [= <-] Hs. by apply Hrej.
  - intros Hresp Hr Hs. rewrite <- Hlim in Hr.
    eapply (IH _ Hmode Hpass Hip i response r); [exact Hresp | exact Hr | exact Hs].
Qed.

(** X18: the three handlers draw on one quota per client address. In local
    mode, when requests that get past the CSRF check arrive from one address,
    the first opening a window and the others within the hour of that
    window, then from the fourth on each is answered with status 429,
    [X-RateLimit-Remaining = "0"] and the window's end as
    [X-RateLimit-Reset], whichever of [POST], [DELETE] and [GET] the requests
    were. *)
Theorem X18_handlers_share_one_quota env ip first rest
    (w : World (JsError:=JsError) (DB:=DB)) :
  mode toUpperCase (limiter_env env) ≠ "UPSTASH"%string →
  Forall (passes_csrf (Rows:=Rows) env) (first :: rest) →
  Forall (λ a, getClientIP (http_request (arrival_request a)) = ip) (first :: rest) →
  opens_window (arrival_now first) ip (limiter (process w)) →
  Forall (λ a, arrival_now a <= arrival_now first + 3600000) rest →
  ∀ (i : nat) response,
    (serve toUpperCase toLowerCase upstashLimit subscriber_status findUnique update
           count_status findMany_recent subscribe env (first :: rest) w).2 !! i
      = Some response →
    (3 ≤ i)%nat →
    response = mkResponse 429 (ErrorPayload "Rate limit exceeded. Please try again later.")
                 {[ "X-RateLimit-Limit"%string := "3"%string;
                    "X-RateLimit-Remaining"%string := "0"%string;
                    "X-RateLimit-Reset"%string
                      := number_toString (arrival_now first + 3600000) ]}.
Proof.
  intros Hmode Hpass Hip Hopen Hrest i response Hresp Hi.
  destruct (quota_within_window ip RATE_LIMIT_CONFIG (limiter (process w))
              (arrival_now first) (arrival_now <$> rest)) as [Hlen Hquota].
  { simpl. lia. }
  { done. }
  { apply Forall_fmap. eapply Forall_impl; [exact Hrest |]. simpl. intros a Ha.
    unfold RATE_LIMIT_CONFIG. simpl. lia. }
  assert (same_key_calls ip RATE_LIMIT_CONFIG (arrival_now first :: (arrival_now <$> rest))
          = (λ a, (arrival_now a, ip, RATE_LIMIT_CONFIG)) <$> (first :: rest)) as Hcalls.
  { unfold same_key_calls. simpl. f_equal. rewrite <- list_fmap_compose. done. }
  rewrite Hcalls in Hlen, Hquota.
  destruct (lookup_lt_is_Some_2
              (run_calls ((λ a, (arrival_now a, ip, RATE_LIMIT_CONFIG)) <$> (first :: rest))
                         (limiter (process w))).2 i) as [r Hr].
  { rewrite Hlen, length_fmap. apply lookup_lt_Some in Hresp.
    rewrite serve_length in Hresp. simpl in Hresp. lia. }
  destruct (Hquota i r Hr) as (Hreset & _ & Hrej).
  destruct Hrej as [Hs Hrem]; [simpl; lia |].
  rewrite (serve_local env ip (first :: rest) w Hmode Hpass Hip i response r Hresp Hr Hs).
  rewrite Hrem, Hreset. reflexivity.
Qed.
End RouteFacts.

(** *** The handlers on concrete requests

    The runs below use a database without content (type [unit]) whose
    look-ups find nothing, and an external backend that is down. *)

Lemma X13_csrf_block_witness :
  let env := mkRouteEnv (Some "true"%string) (Some "s3cret"%string) (mkEnv None None) in
  let request := mkHttpRequest
    (mkRequest {[ "x-forwarded-for"%string := "10.0.0.1"%string ]}) (Some "a@b.c"%string) in
  let w : World (JsError:=string) (DB:=unit) := mkWorld (mkProcess initial []) tt in
  let down : string → RateLimitConfig → string + RateLimitResult := λ _ _, inl "down"%string in
  let blocked : Response (Rows:=unit) :=
    mkResponse 403 (ErrorPayload "CSRF token missing or invalid") ∅ in
  POST ascii_upper down (λ _ _ db, (db, inl "unused"%string)) env 1000 request w
    = (w, blocked) ∧
  DELETE (Subscriber:=string) ascii_upper ascii_upper down id
         (λ _ db, (db, inr None)) (λ _ _ db, (db, inr tt)) env 1000 1000 request w
    = (w, blocked).
Proof.
  intros env request w down blocked.
  apply (X13_csrf_block_uses_no_quota (Subscriber:=string) ascii_upper ascii_upper down id
           (λ _ db, (db, inr None)) (λ _ _ db, (db, inr tt))
           (λ _ _ db, (db, inl "unused"%string)) env 1000 1000 request w blocked).
  reflexivity.
Defined.

Lemma X14_over_limit_witness :
  let env := mkRouteEnv None None (mkEnv None None) in
  let request := mkHttpRequest
    (mkRequest {[ "x-forwarded-for"%string := "10.0.0.1"%string ]}) None in
  let st := mkLimiter {[ "10.0.0.1"%string := mkEntry 3 5000 ]} 0 in
  let w : World (JsError:=string) (DB:=unit) := mkWorld (mkProcess st []) tt in
  let down : string → RateLimitConfig → string + RateLimitResult := λ _ _, inl "down"%string in
  GET (Rows:=unit) ascii_upper down (λ _ db, (db, inr 0)) (λ db, (db, inr tt))
      env 4000 request w
  = (w, mkResponse 429 (ErrorPayload "Rate limit exceeded. Please try again later.")
          {[ "X-RateLimit-Limit"%string := "3"%string;
             "X-RateLimit-Remaining"%string := "0"%string;
             "X-RateLimit-Reset"%string := "5000"%string ]}).
Proof.
  intros env request st w down.
  refine (proj1 (X14_over_limit_is_429 (Subscriber:=string) ascii_upper ascii_upper down id
                   (λ _ db, (db, inr None)) (λ _ _ db, (db, inr tt))
                   (λ _ db, (db, inr 0)) (λ db, (db, inr tt))
                   (λ _ _ db, (db, inl "unused"%string))
                   env 4000 4000 request w (mkResult false 0 5000) _ _));
    reflexivity.
Defined.

Lemma X15_limiter_failure_witness :
  let env := mkRouteEnv None None
               (mkEnv (Some "upstash"%string) (Some "production"%string)) in
  let request := mkHttpRequest
    (mkRequest {[ "x-forwarded-for"%string := "10.0.0.1"%string ]}) None in
  let w : World (JsError:=string) (DB:=unit) := mkWorld (mkProcess initial []) tt in
  let down : string → RateLimitConfig → string + RateLimitResult := λ _ _, inl "down"%string in
  (GET (Rows:=unit) ascii_upper down (λ _ db, (db, inr 0)) (λ db, (db, inr tt))
       env 4000 request w).2
  = mkResponse 500 (ErrorPayload "Failed to fetch stats") ∅.
Proof.
  intros env request w down.
  refine (f_equal snd
            (proj1 (X15_limiter_failure_is_500 (Subscriber:=string) ascii_upper ascii_upper
                      down id (λ _ db, (db, inr None)) (λ _ _ db, (db, inr tt))
                      (λ _ db, (db, inr 0)) (λ db, (db, inr tt))
                      (λ _ _ db, (db, inl "unused"%string))
                      env 4000 4000 request w "down"%string _))).
  reflexivity.
Defined.

Lemma X16_every_request_is_counted_witness :
  let env := mkRouteEnv None None (mkEnv None None) in
  let request := mkHttpRequest
    (mkRequest {[ "x-forwarded-for"%string := "10.0.0.1"%string ]}) None in
  let w : World (JsError:=string) (DB:=unit) := mkWorld (mkProcess initial []) tt in
  let down : string → RateLimitConfig → string + RateLimitResult := λ _ _, inl "down"%string in
  let out := DELETE (Rows:=unit) (Subscriber:=string) ascii_upper ascii_upper down id
               (λ _ db, (db, inr None)) (λ _ _ db, (db, inr tt)) env 1000 1000 request w in
  status out.2 = 400 ∧
  rateLimitStore (limiter (process out.1)) !! "10.0.0.1"%string
    = Some (mkEntry 1 3601000).
Proof.
  intros env request w down out. split; [reflexivity |].
  assert (mode ascii_upper (limiter_env env) ≠ "UPSTASH"%string) as Hmode
    by (vm_compute; discriminate).
  destruct (X16_every_request_is_counted (Subscriber:=string) (Rows:=unit)
              ascii_upper ascii_upper down id
              (λ _ db, (db, inr None)) (λ _ _ db, (db, inr tt))
              (λ _ db, (db, inr 0)) (λ db, (db, inr tt))
              (λ _ _ db, (db, inl "unused"%string))
              env 1000 1000 request w Hmode) as [_ Hrest].
  destruct Hrest as [_ Hdelete]; [reflexivity |].
  unfold out. rewrite Hdelete. reflexivity.
Defined.

Lemma X18_handlers_share_one_quota_witness :
  let env := mkRouteEnv None None (mkEnv None None) in
  let request := mkHttpRequest
    (mkRequest {[ "x-forwarded-for"%string := "10.0.0.1"%string ]}) None in
  let w : World (JsError:=string) (DB:=unit) := mkWorld (mkProcess initial []) tt in
  let down : string → RateLimitConfig → string + RateLimitResult := λ _ _, inl "down"%string in
  let arrivals := [mkArrival MethodGet 1000 1000 request;
                   mkArrival MethodDelete 2000 2000 request;
                   mkArrival MethodGet 3000 3000 request;
                   mkArrival MethodPost 4000 4000 request] in
  (serve (Rows:=unit) (Subscriber:=string) ascii_upper ascii_upper down id
         (λ _ db, (db, inr None)) (λ _ _ db, (db, inr tt))
         (λ _ db, (db, inr 0)) (λ db, (db, inr tt))
         (λ _ _ db, (db, inl "unused"%string)) env arrivals w).2 !! 3%nat
  = Some (mkResponse 429 (ErrorPayload "Rate limit exceeded. Please try again later.")
            {[ "X-RateLimit-Limit"%string := "3"%string;
               "X-RateLimit-Remaining"%string := "0"%string;
               "X-RateLimit-Reset"%string := "3601000"%string ]}).
Proof.
  intros env request w down arrivals.
  assert (mode ascii_upper (limiter_env env) ≠ "UPSTASH"%string) as Hmode
    by (vm_compute; discriminate).
  destruct ((serve (Rows:=unit) (Subscriber:=string) ascii_upper ascii_upper down id
               (λ _ db, (db, inr None)) (λ _ _ db, (db, inr tt))
               (λ _ db, (db, inr 0)) (λ db, (db, inr tt))
               (λ _ _ db, (db, inl "unused"%string)) env arrivals w).2 !! 3%nat)
    as [response|] eqn:Hresp; [| vm_compute in Hresp; discriminate].
  f_equal.
  refine (X18_handlers_share_one_quota (Subscriber:=string) (Rows:=unit)
            ascii_upper ascii_upper down id
            (λ _ db, (db, inr None)) (λ _ _ db, (db, inr tt))
            (λ _ db, (db, inr 0)) (λ db, (db, inr tt))
            (λ _ _ db, (db, inl "unused"%string))
            env "10.0.0.1" (mkArrival MethodGet 1000 1000 request)
            [mkArrival MethodDelete 2000 2000 request;
             mkArrival MethodGet 3000 3000 request;
             mkArrival MethodPost 4000 4000 request]
            w Hmode _ _ _ _ 3%nat response Hresp _).
  - repeat constructor; (by left) || (right; reflexivity).
  - repeat constructor.
  - exact I.
  - repeat constructor; simpl; lia.
  - lia.
Defined.

(** * Calls of distinct identifiers in flight together *)

Module SpreadFacts.
Import Async Spread SpreadShape.

Lemma reaction_jobs_app i l1 l2 :
  reaction_jobs i (l1 ++ l2) = reaction_jobs i l1 ++ reaction_jobs (i + length l1) l2.
Proof.
  revert i. induction l1 as [|c l1 IH]; intros i; simpl.
  - by rewrite Nat.add_0_r.
  - rewrite IH. by replace (S i + length l1)%nat with (i + S (length l1))%nat by lia.
Qed.

Lemma lock_entries_app i l1 l2 :
  lock_entries i (l1 ++ l2) = lock_entries i l1 ++ lock_entries (i + length l1) l2.
Proof.
  revert i. induction l1 as [|c l1 IH]; intros i; simpl.
  - by rewrite Nat.add_0_r.
  - rewrite IH. by replace (S i + length l1)%nat with (i + S (length l1))%nat by lia.
Qed.

Lemma lock_entries_keys i l : (lock_entries i l).*1 = call_key <$> l.
Proof. revert i. induction l as [|c l IH]; intros i; simpl; [done |]. by rewrite IH. Qed.

Section WithBody.
Context {E : Type}.
Variable body : Z → string → RateLimitConfig → Limiter → Limiter * Completion E.
Variable st : Limiter.

(** A call whose identifier has no lock runs its synchronous part. *)
Lemma start_one pre c (m : Machine E) :
  call_key c ∉ call_key <$> pre →
  started pre st m →
  ∃ m', start_call c m = Some m' ∧ started (pre ++ [c]) st m'.
Proof.
  intros Hfresh [Hq Hlocks Hheap Hpid Hcall Hlim Hset].
  destruct c as [[now k] cfg]. unfold call_key in Hfresh. simpl in Hfresh.
  destruct m as [lim locks hp np nc q done]. simpl in *. subst.
  assert ((list_to_map (lock_entries 0 pre) : gmap string pid) !! k = None) as Hnone.
  { apply not_elem_of_list_to_map_1. by rewrite lock_entries_keys. }
  unfold start_call. rewrite Hnone. unfold new_promise. simpl.
  unfold subscribe at 2. simpl.
  rewrite !lookup_insert_ne by lia. rewrite lookup_insert_eq. simpl.
  unfold subscribe. simpl.
  rewrite !lookup_insert_ne by lia. rewrite lookup_insert_eq. simpl.
  eexists. split; [reflexivity |].
  split; simpl.
  - rewrite reaction_jobs_app. simpl. rewrite <- app_assoc. done.
  - rewrite lock_entries_app. simpl. rewrite list_to_map_snoc.
    + unfold holder, call_key. simpl. do 2 f_equal.
    + by rewrite lock_entries_keys.
  - intros i Hi. rewrite length_app in Hi. simpl in Hi.
    destruct (decide (i = length pre)) as [-> | Hne].
    + unfold prev, gate, holder. simpl.
      split; [| split].
      * rewrite !lookup_insert_ne by lia. by rewrite lookup_insert_eq.
      * rewrite lookup_insert_ne by lia. by rewrite lookup_insert_eq.
      * by rewrite lookup_insert_eq.
    + destruct (Hheap i) as (Hp & Hg & Hh); [lia |].
      unfold prev, gate, holder in *. simpl in *.
      rewrite !lookup_insert_ne by lia. done.
  - rewrite length_app. simpl. lia.
  - rewrite length_app. simpl. lia.
  - done.
  - done.
Qed.

Lemma start_spread rest : ∀ pre (m : Machine E),
  NoDup (call_key <$> (pre ++ rest)) →
  started pre st m →
  ∃ m', start_all rest m = Some m' ∧ started (pre ++ rest) st m'.
Proof.
  induction rest as [|c rest IH]; intros pre m Hnodup Hm.
  - exists m. rewrite app_nil_r. done.
  - destruct (start_one pre c m) as (m1 & Hstart & Hm1); [| done |].
    { rewrite fmap_app, fmap_cons in Hnodup. apply NoDup_app in Hnodup as (_ & Hdis & _).
      intros Hin. apply (Hdis _ Hin). by left. }
    destruct (IH (pre ++ [c]) m1) as (m' & Hrest & Hm').
    { by rewrite <- app_assoc. }
    { done. }
    exists m'. simpl. rewrite Hstart. simpl. rewrite <- app_assoc in Hm'. done.
Qed.

Lemma thenable_jobs_S a n :
  thenable_jobs a (S n)
  = thenable_jobs a n ++ [ResolveThenableJob (holder (a + n)) (gate (a + n))].
Proof. unfold thenable_jobs. by rewrite seq_S, fmap_app. Qed.

(** The first call of those still waiting runs its critical section in two
    jobs, without any other call having settled or released anything. *)
Lemma run_one pre c post (m : Machine E) :
  NoDup (call_key <$> (c :: post)) →
  running body pre (c :: post) st m →
  ∃ m', run_jobs body 2 m = Some m' ∧ running body (pre ++ [c]) post st m'.
Proof.
  intros Hnodup [Hq Hlocks Hheap Hlim Hset].
  apply NoDup_cons in Hnodup as [Hfresh _].
  destruct m as [lim locks hp np nc q done]. simpl in Hq, Hlocks, Hlim, Hset.
  set (k := length pre) in *.
  assert (hp !! gate k = Some (Pending [])) as Hgate.
  { destruct (Hheap k) as (_ & Hg & _); [simpl; lia |]. simpl in Hg.
    by rewrite decide_False in Hg by lia. }
  destruct (body (call_time c) (call_key c) c.2 lim) as [lim' o] eqn:Hbody.
  set (rest := reaction_jobs (S k) post).
  set (m1 := mkMachine lim locks hp np nc
               (ReactionJob (OnAwait (frame_of k c))
                  :: rest ++ thenable_jobs 0 k
                  ++ [ResolveThenableJob (holder k) (gate k)]) done).
  set (m2 := mkMachine lim'
               (list_to_map (lock_entries (S k) post))
               (<[gate k := Fulfilled]> hp) np nc
               (rest ++ thenable_jobs 0 (S k)) (done ++ [(k, o)])).
  assert (step body (mkMachine lim locks hp np nc q done) = Some m1) as Hstep1.
  { unfold step. simpl. rewrite Hq. simpl. unfold enqueue, m1. simpl.
    unfold rest. by rewrite <- (assoc_L (++)). }
  assert (step body m1 = Some m2) as Hstep2.
  { unfold step, m1, exec, resume. simpl. rewrite Hbody.
    unfold fulfil. simpl. rewrite Hgate. simpl.
    rewrite Hlocks. simpl. rewrite lookup_insert_eq.
    rewrite decide_True by done. unfold set_locks. simpl.
    rewrite delete_insert_id.
    2:{ apply not_elem_of_list_to_map_1. by rewrite lock_entries_keys. }
    unfold m2. rewrite thenable_jobs_S. simpl.
    by rewrite app_nil_r. }
  exists m2. split.
  { simpl. rewrite Hstep1. simpl. by rewrite Hstep2. }
  assert (length (pre ++ [c]) = S k) as Hlen by (rewrite length_app; simpl; lia).
  split; simpl; rewrite ?Hlen.
  - done.
  - done.
  - intros i Hi. destruct (Hheap i) as (Hp & Hg & Hh); [simpl; lia |].
    simpl in Hp, Hg, Hh. fold k in Hg. unfold m2. simpl.
    destruct (decide (i = k)) as [-> | Hne].
    + split; [| split].
      * by rewrite lookup_insert_ne by (unfold prev, gate; lia).
      * rewrite lookup_insert_eq. by rewrite decide_True by lia.
      * by rewrite lookup_insert_ne by (unfold gate, holder; lia).
    + split; [| split].
      * by rewrite lookup_insert_ne by (unfold prev, gate; lia).
      * rewrite lookup_insert_ne by (unfold gate; lia). rewrite Hg.
        destruct (decide (i < k)%nat), (decide (i < S k)%nat); (done || lia).
      * by rewrite lookup_insert_ne by (unfold gate, holder; lia).
  - destruct c as [[now key] cfg]. rewrite QueueFacts.in_sequence_snoc. simpl.
    rewrite <- Hlim. unfold call_time, call_key in Hbody. simpl in Hbody.
    by rewrite Hbody.
  - destruct c as [[now key] cfg]. rewrite QueueFacts.in_sequence_snoc. simpl.
    rewrite <- Hlim. unfold call_time, call_key in Hbody. simpl in Hbody.
    rewrite Hbody. simpl. rewrite imap_app. simpl. rewrite <- Hset, Nat.add_0_r.
    by rewrite QueueFacts.in_sequence_length.
Qed.

Lemma run_jobs_add n1 n2 (m m1 : Machine E) :
  run_jobs body n1 m = Some m1 →
  run_jobs body (n1 + n2) m = run_jobs body n2 m1.
Proof.
  revert m. induction n1 as [|n1 IH]; intros m; simpl; [by intros [= ->] |].
  destruct (step body m) as [m'|]; simpl; [apply IH | done].
Qed.

Lemma run_spread post : ∀ pre (m : Machine E),
  NoDup (call_key <$> post) →
  running body pre post st m →
  ∃ m', run_jobs body (2 * length post) m = Some m' ∧
        running body (pre ++ post) [] st m'.
Proof.
  induction post as [|c post IH]; intros pre m Hnodup Hm.
  - exists m. rewrite app_nil_r. done.
  - destruct (run_one pre c post m Hnodup Hm) as (m1 & Hrun1 & Hm1).
    destruct (IH (pre ++ [c]) m1) as (m' & Hrun & Hm').
    { apply NoDup_cons in Hnodup. tauto. }
    { done. }
    exists m'. rewrite <- app_assoc in Hm'. split; [| done].
    replace (2 * length (c :: post))%nat with (2 + 2 * length post)%nat by (simpl; lia).
    by rewrite (run_jobs_add 2 _ m m1 Hrun1).
Qed.

Lemma adopt_jobs_S a n :
  adopt_jobs a (S n) = adopt_jobs a n ++ [ReactionJob (OnAdopt (holder (a + n)))].
Proof. unfold adopt_jobs. by rewrite seq_S, fmap_app. Qed.

(** Once the calls have settled, each holder follows its gate, which is
    fulfilled by then... *)
Lemma follow_gates total n : ∀ a lim locks hp np nc done,
  (a + n = total)%nat →
  promises_of total total 0 (mkMachine (E:=E) lim locks hp np nc [] done) →
  run_jobs body n
    (mkMachine lim locks hp np nc (thenable_jobs a n ++ adopt_jobs 0 a) done)
  = Some (mkMachine lim locks hp np nc (adopt_jobs 0 total) done).
Proof.
  induction n as [|n IH]; intros a lim locks hp np nc done Hlen Hheap.
  - assert (a = total) as -> by lia. reflexivity.
  - destruct (Hheap a) as (_ & Hg & _); [lia |]. simpl in Hg.
    rewrite decide_True in Hg by lia.
    simpl. unfold step. simpl. unfold subscribe. simpl. rewrite Hg. simpl.
    unfold enqueue. simpl. rewrite <- (assoc_L (++)), <- adopt_jobs_S.
    apply (IH (S a)); [lia | done].
Qed.

(** ... and is fulfilled in its turn; nothing waits on it. *)
Lemma fulfil_holders total n : ∀ b lim locks hp np nc done,
  (b + n = total)%nat →
  promises_of total total b (mkMachine (E:=E) lim locks hp np nc [] done) →
  ∃ hp', run_jobs body n (mkMachine lim locks hp np nc (adopt_jobs b n) done)
         = Some (mkMachine lim locks hp' np nc [] done) ∧
         promises_of total total total (mkMachine (E:=E) lim locks hp' np nc [] done).
Proof.
  induction n as [|n IH]; intros b lim locks hp np nc done Hlen Hheap.
  - assert (b = total) as -> by lia. exists hp. split; [reflexivity | done].
  - destruct (Hheap b) as (_ & _ & Hh); [lia |]. simpl in Hh.
    rewrite decide_False in Hh by lia.
    destruct (IH (S b) lim locks (<[holder b := Fulfilled]> hp) np nc done)
      as (hp' & Hrun & Hheap'); [lia | |].
    { intros i Hi. destruct (Hheap i Hi) as (Hp & Hg & Hhi). simpl in *.
      destruct (decide (i = b)) as [-> | Hne].
      - split; [| split].
        + by rewrite lookup_insert_ne by (unfold prev, holder; lia).
        + by rewrite lookup_insert_ne by (unfold gate, holder; lia).
        + rewrite lookup_insert_eq. by rewrite decide_True by lia.
      - rewrite !lookup_insert_ne by (unfold prev, gate, holder; lia).
        split; [done |]. split; [done |]. rewrite Hhi.
        destruct (decide (i < b)%nat), (decide (i < S b)%nat); (done || lia). }
    exists hp'. split; [| done].
    simpl. unfold step. simpl. unfold fulfil. simpl. rewrite Hh. simpl.
    unfold enqueue, set_heap. simpl. rewrite app_nil_r. exact Hrun.
Qed.

Lemma run_jobs_until_idle n : ∀ (m m' : Machine E),
  run_jobs body n m = Some m' → microtasks m' = [] →
  run_until_idle body n m = Some m'.
Proof.
  induction n as [|n IH]; intros m m' Hrun Hidle; simpl in *.
  - injection Hrun as ->. by rewrite Hidle.
  - destruct (microtasks m) as [|j q] eqn:Hq.
    + unfold step in Hrun. by rewrite Hq in Hrun.
    + destruct (step body m) as [m1|]; simpl in *; [by apply IH | done].
Qed.

(** Calls of pairwise distinct identifiers fired together on an idle
    machine. *)
Lemma fire_distinct_keys calls :
  NoDup (call_key <$> calls) →
  (∃ m, start_all calls (idle st) ≫= run_jobs body (2 * length calls) = Some m ∧
        rateLimitLocks m = ∅ ∧
        m_limiter m = (in_sequence body calls st).1 ∧
        settled m = imap (λ i o, (i, o)) (in_sequence body calls st).2) ∧
  (∃ m, fire body (4 * length calls) calls st = Some m ∧
        microtasks m = [] ∧
        rateLimitLocks m = ∅ ∧
        promises_of (length calls) (length calls) (length calls) m ∧
        m_limiter m = (in_sequence body calls st).1 ∧
        settled m = imap (λ i o, (i, o)) (in_sequence body calls st).2).
Proof.
  intros Hnodup.
  destruct (start_spread calls [] (idle st)) as (m0 & Hstart & Hm0); [done | |].
  { split; try done. intros i Hi. simpl in Hi. lia. }
  assert (running body [] calls st m0) as Hrun0.
  { destruct Hm0 as [Hq Hlocks Hheap _ _ Hlim Hset].
    split; simpl; [unfold thenable_jobs; simpl; by rewrite app_nil_r | done..]. }
  destruct (run_spread calls [] m0 Hnodup Hrun0) as (m1 & Hrun1 & Hm1).
  simpl in Hm1. destruct Hm1 as [Hq Hlocks Hheap Hlim Hset].
  simpl in Hq, Hlocks, Hheap. rewrite Nat.add_0_r in Hheap.
  split.
  - exists m1. rewrite Hstart. simpl. done.
  - destruct m1 as [lim locks hp np nc q done].
    simpl in Hq, Hlocks, Hheap, Hlim, Hset. subst q locks.
    pose proof (follow_gates (length calls) (length calls) 0 lim ∅ hp np nc done
                  eq_refl Hheap) as Hrun2.
    rewrite app_nil_r in Hrun2.
    destruct (fulfil_holders (length calls) (length calls) 0 lim ∅ hp np nc done
                eq_refl Hheap) as (hp' & Hrun3 & Hheap').
    exists (mkMachine lim ∅ hp' np nc [] done). split; [| done].
    unfold fire. rewrite Hstart. simpl. apply run_jobs_until_idle; [| done].
    replace (length calls + (length calls + (length calls + (length calls + 0))))%nat
      with (2 * length calls + (length calls + length calls))%nat by lia.
    rewrite (run_jobs_add _ _ _ _ Hrun1).
    rewrite (run_jobs_add _ _ _ _ Hrun2). exact Hrun3.
Qed.
End WithBody.
End SpreadFacts.

(** X19: calls with pairwise distinct identifiers do not wait for each
    other. Fired together on an idle limiter, they have all run their
    critical section and settled after two promise jobs per call, in firing
    order and with the results of running them one after the other; the
    queue is empty after four jobs per call, with every promise fulfilled
    and the lock map empty. *)
Theorem X19_distinct_keys_do_not_wait {E : Type} calls st :
  NoDup (call_key <$> calls) →
  (∃ m, Async.start_all calls (Async.idle st)
          ≫= Spread.run_jobs (E:=E) Async.critical_section (2 * length calls) = Some m ∧
        Async.rateLimitLocks m = ∅ ∧
        Async.m_limiter m = (run_calls calls st).1 ∧
        Async.settled m = imap (λ i r, (i, Returned r)) (run_calls calls st).2) ∧
  (∃ m, Async.fire (E:=E) Async.critical_section (4 * length calls) calls st = Some m ∧
        Async.microtasks m = [] ∧
        Async.rateLimitLocks m = ∅ ∧
        Spread.promises_of (length calls) (length calls) (length calls) m ∧
        Async.m_limiter m = (run_calls calls st).1 ∧
        Async.settled m = imap (λ i r, (i, Returned r)) (run_calls calls st).2).
Proof.
  intros Hnodup.
  destruct (SpreadFacts.fire_distinct_keys (E:=E) Async.critical_section st calls Hnodup)
    as [(m1 & Hrun1 & Hlocks1 & Hlim1 & Hset1) (m2 & Hrun2 & Hq2 & Hlocks2 & Hheap2 & Hlim2 & Hset2)].
  rewrite QueueFacts.in_sequence_critical_section in Hlim1, Hset1, Hlim2, Hset2.
  simpl in Hlim1, Hset1, Hlim2, Hset2. rewrite imap_fmap in Hset1, Hset2.
  split; [exists m1 | exists m2]; done.
Qed.

Lemma X19_distinct_keys_witness :
  let cfg := mkConfig 3 60000 in
  let calls := [(10, "a"%string, cfg); (11, "b"%string, cfg); (12, "c"%string, cfg)] in
  ∃ m, Async.start_all calls (Async.idle initial)
         ≫= Spread.run_jobs (E:=unit) Async.critical_section 6 = Some m ∧
       Async.rateLimitLocks m = ∅ ∧
       Async.m_limiter m = (run_calls calls initial).1 ∧
       Async.settled m = imap (λ i r, (i, Returned r)) (run_calls calls initial).2.
Proof.
  intros cfg calls.
  refine (proj1 (X19_distinct_keys_do_not_wait (E:=unit) calls initial _)).
  refine (bool_decide_unpack _ _). vm_compute. exact I.
Defined.

(** With one identifier, the second call has not settled after two jobs
    per call. *)
Example same_key_calls_do_wait :
  let cfg := mkConfig 3 60000 in
  let calls := [(10, "a"%string, cfg); (11, "a"%string, cfg)] in
  Async.settled
    <$> (Async.start_all calls (Async.idle initial)
           ≫= Spread.run_jobs (E:=unit) Async.critical_section 4)
  = Some [(0%nat, Returned (mkResult true 2 60010))].
Proof. vm_compute. reflexivity. Qed.
